(** * The spy game of [src/App.tsx]: session state, handlers and screens

    The React component [App] keeps the whole game session in twelve
    [useState] cells.  Every handler reads the cells of the render it was
    created in and queues new values with the setters; React commits the
    queue as one new state.  A handler is therefore a function from the
    state of the current render to the next state, and that is how each one
    is written below, setter call by setter call.

    [Math.random()] is an input of the handlers that use it: the samples it
    returns are passed in, in the order the handler draws them.  The
    confetti calls change no state cell and are left out. *)

From Stdlib Require Import Ascii.
From stdpp Require Import base numbers list strings pretty.

Local Open Scope Z_scope.
Local Open Scope nat_scope.

(** ** Data model *)

(** [type GameState = 'setup' | 'reveal' | ...] *)
Inductive GameState :=
  setup | reveal | playing | voting | elimination_result | summary.

(** [role: 'player' | 'spy'] *)
Inductive Role := player | spy.

(** [useState<'players' | 'spies' | null>]: the two winners. *)
Inductive Victory := victory_players | victory_spies.

Global Instance GameState_eq_dec : EqDecision GameState.
Proof. solve_decision. Defined.
Global Instance Role_eq_dec : EqDecision Role.
Proof. solve_decision. Defined.
Global Instance Victory_eq_dec : EqDecision Victory.
Proof. solve_decision. Defined.

(** [interface Player].  The optional field [isEliminated?: boolean] is
    [None] while the property is absent from the object. *)
Record Player := mkPlayer {
  id : string;
  name : string;
  role : Role;
  hasSeenRole : bool;
  isEliminated : option bool
}.

Global Instance Player_eq_dec : EqDecision Player.
Proof. solve_decision. Defined.

(** JavaScript truthiness of the optional flag, as in [!p.isEliminated]. *)
Definition truthy (flag : option bool) : bool :=
  match flag with
  | Some true => true
  | _ => false
  end.

(** Object spreads [{ ...p, field: v }]. *)
Definition withHasSeenRole (b : bool) (p : Player) : Player :=
  mkPlayer (id p) (name p) (role p) b (isEliminated p).
Definition withIsEliminated (e : option bool) (p : Player) : Player :=
  mkPlayer (id p) (name p) (role p) (hasSeenRole p) e.

(** One entry of [CATEGORIES] (imported from [./constants], which is not
    part of the sources at hand): only [name] and [words] are used. *)
Record Category := mkCategory {
  category_name : string;
  words : list string
}.

(** The state cells of [App].  [selectedWord] is [None] when the cell holds
    [undefined], which [startGame] stores if the drawn category has an
    empty word list. *)
Record State := mkState {
  gameState : GameState;
  players : list Player;
  newPlayerName : string;
  selectedWord : option string;
  selectedCategory : string;
  currentPlayerIndex : nat;
  isRoleVisible : bool;
  timeLeft : Z;
  isTimerActive : bool;
  spyCount : nat;
  votedPlayer : option Player;
  victoryType : option Victory
}.

Global Instance State_eq_dec : EqDecision State.
Proof. solve_decision. Defined.

(** The initial values given to [useState]. *)
Definition initial : State :=
  mkState setup [] "" (Some "") "" 0 false 300%Z false 1 None None.

(** The setters, each replacing one cell. *)
Definition setGameState (v : GameState) (s : State) : State :=
  mkState v (players s) (newPlayerName s) (selectedWord s)
    (selectedCategory s) (currentPlayerIndex s) (isRoleVisible s)
    (timeLeft s) (isTimerActive s) (spyCount s) (votedPlayer s)
    (victoryType s).
Definition setPlayers (v : list Player) (s : State) : State :=
  mkState (gameState s) v (newPlayerName s) (selectedWord s)
    (selectedCategory s) (currentPlayerIndex s) (isRoleVisible s)
    (timeLeft s) (isTimerActive s) (spyCount s) (votedPlayer s)
    (victoryType s).
Definition setNewPlayerName (v : string) (s : State) : State :=
  mkState (gameState s) (players s) v (selectedWord s)
    (selectedCategory s) (currentPlayerIndex s) (isRoleVisible s)
    (timeLeft s) (isTimerActive s) (spyCount s) (votedPlayer s)
    (victoryType s).
Definition setSelectedWord (v : option string) (s : State) : State :=
  mkState (gameState s) (players s) (newPlayerName s) v
    (selectedCategory s) (currentPlayerIndex s) (isRoleVisible s)
    (timeLeft s) (isTimerActive s) (spyCount s) (votedPlayer s)
    (victoryType s).
Definition setSelectedCategory (v : string) (s : State) : State :=
  mkState (gameState s) (players s) (newPlayerName s) (selectedWord s)
    v (currentPlayerIndex s) (isRoleVisible s)
    (timeLeft s) (isTimerActive s) (spyCount s) (votedPlayer s)
    (victoryType s).
Definition setCurrentPlayerIndex (v : nat) (s : State) : State :=
  mkState (gameState s) (players s) (newPlayerName s) (selectedWord s)
    (selectedCategory s) v (isRoleVisible s)
    (timeLeft s) (isTimerActive s) (spyCount s) (votedPlayer s)
    (victoryType s).
Definition setIsRoleVisible (v : bool) (s : State) : State :=
  mkState (gameState s) (players s) (newPlayerName s) (selectedWord s)
    (selectedCategory s) (currentPlayerIndex s) v
    (timeLeft s) (isTimerActive s) (spyCount s) (votedPlayer s)
    (victoryType s).
Definition setTimeLeft (v : Z) (s : State) : State :=
  mkState (gameState s) (players s) (newPlayerName s) (selectedWord s)
    (selectedCategory s) (currentPlayerIndex s) (isRoleVisible s)
    v (isTimerActive s) (spyCount s) (votedPlayer s)
    (victoryType s).
Definition setIsTimerActive (v : bool) (s : State) : State :=
  mkState (gameState s) (players s) (newPlayerName s) (selectedWord s)
    (selectedCategory s) (currentPlayerIndex s) (isRoleVisible s)
    (timeLeft s) v (spyCount s) (votedPlayer s)
    (victoryType s).
Definition setSpyCount (v : nat) (s : State) : State :=
  mkState (gameState s) (players s) (newPlayerName s) (selectedWord s)
    (selectedCategory s) (currentPlayerIndex s) (isRoleVisible s)
    (timeLeft s) (isTimerActive s) v (votedPlayer s)
    (victoryType s).
Definition setVotedPlayer (v : option Player) (s : State) : State :=
  mkState (gameState s) (players s) (newPlayerName s) (selectedWord s)
    (selectedCategory s) (currentPlayerIndex s) (isRoleVisible s)
    (timeLeft s) (isTimerActive s) (spyCount s) v
    (victoryType s).
Definition setVictoryType (v : option Victory) (s : State) : State :=
  mkState (gameState s) (players s) (newPlayerName s) (selectedWord s)
    (selectedCategory s) (currentPlayerIndex s) (isRoleVisible s)
    (timeLeft s) (isTimerActive s) (spyCount s) (votedPlayer s)
    v.

(** A handler's queue of setter calls, read top to bottom. *)
Notation "s |> f" := (f s) (at level 45, left associativity, only parsing).

(** ** [Math.random] *)

(** One value returned by [Math.random()]: the fraction [numer / denom].
    The function's contract is a value in the half-open interval from 0
    to 1, which is [validSample].  Rounding of the floating-point product
    is not modelled. *)
Record Sample := mkSample { numer : nat; denom : nat }.

Definition validSample (r : Sample) : Prop := numer r < denom r.

Global Instance validSample_dec r : Decision (validSample r).
Proof. unfold validSample. apply _. Defined.

(** [Math.floor(Math.random() * n)] for the sample [r]. *)
Definition floorRandom (r : Sample) (n : nat) : nat :=
  Nat.div (numer r * n) (denom r).

(** What a handler that can fail ends with: it returned after queueing its
    setters ([Ok], with the committed state), it threw a [TypeError] on a
    property access of [undefined] before any setter ran, or its loop was
    still asking for samples when the given ones ran out. *)
Inductive Result :=
  | Ok (s : State)
  | TypeError
  | OutOfSamples.

(** ** Handlers *)

(** [String.prototype.trim].  A [string] holds the UTF-8 bytes of the
    text.  What [trim] strips are the white space characters and line
    terminators of ECMAScript: U+0009 to U+000D, U+0020, U+00A0, U+1680,
    U+2000 to U+200A, U+2028, U+2029, U+202F, U+205F, U+3000 and
    U+FEFF.  In UTF-8 these are one byte each up to U+0020, the two bytes
    C2 A0, and three bytes for the rest. *)
Definition isByte (n : N) (c : Ascii.ascii) : bool :=
  (N_of_ascii c =? n)%N.

(** The three-byte white space characters. *)
Definition isSpace3 (c d e : Ascii.ascii) : bool :=
  (isByte 0xE1 c && isByte 0x9A d && isByte 0x80 e)
  || (isByte 0xE2 c && isByte 0x80 d &&
      ((0x80 <=? N_of_ascii e)%N && (N_of_ascii e <=? 0x8A)%N
       || isByte 0xA8 e || isByte 0xA9 e || isByte 0xAF e))
  || (isByte 0xE2 c && isByte 0x81 d && isByte 0x9F e)
  || (isByte 0xE3 c && isByte 0x80 d && isByte 0x80 e)
  || (isByte 0xEF c && isByte 0xBB d && isByte 0xBF e).

(** One white space character taken off the front of a string: the rest
    of the string, if it begins with one. *)
Definition stripSpace (s : string) : option string :=
  match s with
  | String c s1 =>
      if Ascii.is_space c then Some s1 else
      match s1 with
      | String d s2 =>
          if isByte 0xC2 c && isByte 0xA0 d then Some s2 else
          match s2 with
          | String e s3 => if isSpace3 c d e then Some s3 else None
          | EmptyString => None
          end
      | EmptyString => None
      end
  | EmptyString => None
  end.

(** White space is taken off the front as long as there is some; a string
    has no more characters than bytes, which bounds the loop. *)
Fixpoint trimStartFrom (fuel : nat) (s : string) : string :=
  match fuel with
  | 0 => s
  | S fuel' =>
      match stripSpace s with
      | Some s' => trimStartFrom fuel' s'
      | None => s
      end
  end.
Definition trimStart (s : string) : string :=
  trimStartFrom (String.length s) s.

(** A string made of white space characters only (the empty one
    included). *)
Fixpoint blankFrom (fuel : nat) (s : string) : bool :=
  match s with
  | EmptyString => true
  | String _ _ =>
      match fuel with
      | 0 => false
      | S fuel' =>
          match stripSpace s with
          | Some s' => blankFrom fuel' s'
          | None => false
          end
      end
  end.
Definition blank (s : string) : bool :=
  blankFrom (String.length s) s.

(** The longest suffix made of white space is cut off. *)
Fixpoint trimEnd (s : string) : string :=
  if blank s then EmptyString else
  match s with
  | String c s' => String c (trimEnd s')
  | EmptyString => EmptyString
  end.

Definition trim (s : string) : string :=
  trimEnd (trimStart s).

(** [addPlayer]; [freshId] is the string that
    [Math.random().toString(36).substr(2, 9)] evaluates to. *)
Definition addPlayer (freshId : string) (s : State) : State :=
  if bool_decide (trim (newPlayerName s) ≠ "")
  then s |> setPlayers (players s ++
                 [mkPlayer freshId (trim (newPlayerName s)) player false None])
         |> setNewPlayerName ""
  else s.

(** [removePlayer] *)
Definition removePlayer (i : string) (s : State) : State :=
  s |> setPlayers (filter (λ p, id p ≠ i) (players s)).

(** The [while] loop of [startGame]: [spyIndices] grows until it has
    [actualSpyCount] entries; every turn draws one sample. *)
Fixpoint pickSpies (n actualSpyCount : nat) (spyIndices : list nat)
    (rs : list Sample) : option (list nat) :=
  if bool_decide (length spyIndices < actualSpyCount) then
    match rs with
    | [] => None
    | r :: rs' =>
        let randomIndex := floorRandom r n in
        if bool_decide (randomIndex ∈ spyIndices)
        then pickSpies n actualSpyCount spyIndices rs'
        else pickSpies n actualSpyCount (spyIndices ++ [randomIndex]) rs'
    end
  else Some spyIndices.

(** The [players.map((p, i) => ...)] of [startGame]. *)
Definition assignRoles (spyIndices : list nat) (ps : list Player)
    : list Player :=
  imap (λ i p, mkPlayer (id p) (name p)
                 (if bool_decide (i ∈ spyIndices) then spy else player)
                 false (isEliminated p)) ps.

Section WithCategories.

(** The imported constant [CATEGORIES]. *)
Variable CATEGORIES : list Category.

(** [startGame].  [players.length - 1] is only evaluated behind the guard
    [players.length < 3], so the subtraction never goes below zero. *)
Definition startGame (s : State) (rs : list Sample) : Result :=
  if bool_decide (length (players s) < 3) then Ok s else
  match rs with
  | rc :: rw :: rs' =>
      match CATEGORIES !! floorRandom rc (length CATEGORIES) with
      | None => TypeError
      | Some category =>
          let word :=
            words category !! floorRandom rw (length (words category)) in
          let actualSpyCount :=
            Nat.min (spyCount s) (length (players s) - 1) in
          match pickSpies (length (players s)) actualSpyCount [] rs' with
          | None => OutOfSamples
          | Some spyIndices =>
              Ok (s |> setPlayers (assignRoles spyIndices (players s))
                    |> setSelectedWord word
                    |> setSelectedCategory (category_name category)
                    |> setGameState reveal
                    |> setCurrentPlayerIndex 0
                    |> setIsRoleVisible false
                    |> setTimeLeft 300%Z)
          end
      end
  | _ => OutOfSamples
  end.

End WithCategories.

(** [nextPlayer].  The assignment to [updatedPlayers[currentPlayerIndex]]
    throws when the index is outside the array, so [players.length - 1] is
    only evaluated on a non-empty array.  The assignment writes into the
    player object itself, which the copied array shares with the array of
    the previous render; nothing reads that one any more, and no voted
    player is held while the reveal screen is up ([inv_voted_phase]
    below), so the write is seen through the new roster only. *)
Definition nextPlayer (s : State) : Result :=
  match players s !! currentPlayerIndex s with
  | None => TypeError
  | Some _ =>
      let s1 := s |> setPlayers (alter (withHasSeenRole true)
                                   (currentPlayerIndex s) (players s)) in
      if bool_decide (currentPlayerIndex s < length (players s) - 1)
      then Ok (s1 |> setCurrentPlayerIndex (currentPlayerIndex s + 1)
                  |> setIsRoleVisible false)
      else Ok (s1 |> setGameState playing
                  |> setIsTimerActive true)
  end.

(** [handleVote] *)
Definition handleVote (target : Player) (s : State) : State :=
  s |> setVotedPlayer (Some target)
    |> setPlayers ((λ p, if bool_decide (id p = id target)
                         then withIsEliminated (Some true) p else p)
                   <$> players s)
    |> setGameState elimination_result
    |> setIsTimerActive false.

(** The two filters of [continueAfterElimination]. *)
Definition remainingSpies (ps : list Player) : list Player :=
  filter (λ p, role p = spy ∧ truthy (isEliminated p) = false) ps.
Definition remainingPlayers (ps : list Player) : list Player :=
  filter (λ p, role p = player ∧ truthy (isEliminated p) = false) ps.

(** [continueAfterElimination] *)
Definition continueAfterElimination (s : State) : State :=
  if bool_decide (length (remainingSpies (players s)) = 0) then
    s |> setVictoryType (Some victory_players)
      |> setGameState summary
  else if bool_decide (length (remainingPlayers (players s))
                       ≤ length (remainingSpies (players s))) then
    s |> setVictoryType (Some victory_spies)
      |> setGameState summary
  else
    s |> setGameState playing
      |> setIsTimerActive true
      |> setVotedPlayer None.

(** [endGame] *)
Definition endGame (s : State) : State :=
  s |> setGameState summary
    |> setIsTimerActive false
    |> setVictoryType None.

(** [resetGame] *)
Definition resetGame (s : State) : State :=
  s |> setGameState setup
    |> setPlayers ((λ p, mkPlayer (id p) (name p) player false (Some false))
                   <$> players s)
    |> setIsTimerActive false
    |> setVotedPlayer None
    |> setVictoryType None.

(** [padStart(n, c)] with a one-character filler. *)
Definition padStart (n : nat) (c : Ascii.ascii) (s : string) : string :=
  Nat.iter (n - String.length s) (String c) s.

(** [formatTime]: [seconds / 60] rounded down, [%] the remainder that
    takes the sign of [seconds], numbers printed in decimal. *)
Definition formatTime (seconds : Z) : string :=
  let mins := (seconds `div` 60)%Z in
  let secs := (seconds `rem` 60)%Z in
  pretty mins +:+ ":" +:+ padStart 2 "0"%char (pretty secs).

(** ** The timer effect and the screens *)

(** The body of the [useEffect] on [[isTimerActive, timeLeft]].  In its
    first branch it only arms the one-second interval; in the second it
    queues [setIsTimerActive(false)].  React runs it after every commit
    that changed one of the two cells; it is idempotent, and running it
    again on unchanged cells gives nothing new. *)
Definition timerEffect (s : State) : State :=
  if isTimerActive s && bool_decide (0 < timeLeft s)%Z then s
  else if bool_decide (timeLeft s = 0%Z) then s |> setIsTimerActive false
  else s.

(** The callback of that interval, [setTimeLeft((prev) => prev - 1)].  The
    interval exists exactly while the first branch of the effect holds. *)
Definition tick (s : State) : State :=
  if isTimerActive s && bool_decide (0 < timeLeft s)%Z
  then s |> setTimeLeft (timeLeft s - 1)%Z
  else s.

(** What can happen to the rendered component: the input field changes, a
    button is pressed, the interval fires.  Buttons of a list are named by
    their position in the rendered list. *)
Inductive Event :=
  | TypeName (text : string)
  | AddPlayerBtn (freshId : string)
  | RemoveBtn (row : nat)
  | SpyCountBtn (count : nat)
  | StartBtn (rs : list Sample)
  | RevealBtn
  | NextPlayerBtn
  | ToggleTimerBtn
  | VoteScreenBtn
  | EndGameBtn
  | VoteBtn (row : nat)
  | BackBtn
  | ContinueBtn
  | ResetBtn
  | Tick.

(** The rows of the voting screen,
    [players.filter(p => !p.isEliminated)]. *)
Definition votingList (s : State) : list Player :=
  filter (λ p, truthy (isEliminated p) = false) (players s).

(** A handler that threw, or that never returned, commits nothing. *)
Definition committed (s : State) (r : Result) : State :=
  match r with
  | Ok s' => s'
  | TypeError | OutOfSamples => s
  end.

Section Screens.

Variable CATEGORIES : list Category.

(** The JSX of [App]: each screen is rendered in its own [gameState] only,
    with the [onClick] handlers and [disabled] attributes given there.  An
    event aimed at a control that is not rendered, or is disabled, changes
    nothing. *)
Definition dispatch (e : Event) (s : State) : State :=
  match gameState s, e with
  | _, Tick => tick s
  | setup, TypeName text => s |> setNewPlayerName text
  | setup, AddPlayerBtn freshId => addPlayer freshId s
  | setup, RemoveBtn row =>
      match players s !! row with
      | Some p => removePlayer (id p) s
      | None => s
      end
  | setup, SpyCountBtn count =>
      if bool_decide (count ∈ [1; 2]) then s |> setSpyCount count else s
  | setup, StartBtn rs =>
      if bool_decide (length (players s) < 3) then s
      else committed s (startGame CATEGORIES s rs)
  | reveal, RevealBtn =>
      if isRoleVisible s then s else s |> setIsRoleVisible true
  | reveal, NextPlayerBtn =>
      if negb (isRoleVisible s) then s else committed s (nextPlayer s)
  | playing, ToggleTimerBtn => s |> setIsTimerActive (negb (isTimerActive s))
  | playing, VoteScreenBtn => s |> setGameState voting
  | playing, EndGameBtn => endGame s
  | voting, VoteBtn row =>
      match votingList s !! row with
      | Some p => handleVote p s
      | None => s
      end
  | voting, BackBtn => s |> setGameState playing
  | elimination_result, ContinueBtn =>
      match votedPlayer s with
      | Some _ => continueAfterElimination s
      | None => s
      end
  | summary, ResetBtn => resetGame s
  | _, _ => s
  end.

(** One event, followed by the timer effect of the commit. *)
Definition step (s : State) (e : Event) : State :=
  timerEffect (dispatch e s).

(** A run of events, oldest first. *)
Definition run (s : State) (es : list Event) : State :=
  foldl step s es.

(** The samples carried by an event are values of [Math.random]. *)
Definition validEvent (e : Event) : Prop :=
  match e with
  | StartBtn rs => Forall validSample rs
  | _ => True
  end.

(** The states the component can be in. *)
Inductive reachable : State → Prop :=
  | reachable_initial : reachable initial
  | reachable_step s e :
      reachable s → validEvent e → reachable (step s e).

End Screens.

(** A vote for [target]: the press of the row that the voting screen
    renders for that player, [onClick={() => handleVote(player)}].  For a
    player the screen has no row for, there is nothing to press. *)
Definition castVote (C : list Category) (target : Player) (s : State)
    : State :=
  match list_find (λ p, p = target) (votingList s) with
  | Some (row, _) => dispatch C (VoteBtn row) s
  | None => s
  end.

(** [n] firings of the interval, each followed by the effect. *)
Definition ticks (n : nat) (s : State) : State :=
  Nat.iter n (λ s', timerEffect (tick s')) s.

(** A two-category word list to run concrete sessions on. *)
Definition demoCategories : list Category :=
  [ mkCategory "food" ["bread"; "rice"];
    mkCategory "places" ["airport"] ].

(** The no-break space U+00A0, in UTF-8. *)
Definition nbsp : string :=
  String (Ascii.ascii_of_N 0xC2) (String (Ascii.ascii_of_N 0xA0) "").

(** ** The first-ever session *)



(** ** Invariant of the reachable states *)

(** What holds of the roster and of the voted player in every state the
    component reaches:
    - in [setup] no player is eliminated;
    - outside [setup] there are at least three players;
    - a voted player is only held in [elimination_result] and [summary];
    - the voted player is the roster entry as it was before its
      [isEliminated] flag was set. *)
Record Inv (s : State) : Prop := mkInv {
  inv_setup :
    gameState s = setup →
    ∀ p, p ∈ players s → truthy (isEliminated p) = false;
  inv_size :
    gameState s ≠ setup → 3 ≤ length (players s);
  inv_voted_phase :
    is_Some (votedPlayer s) →
    gameState s = elimination_result ∨ gameState s = summary;
  inv_voted :
    ∀ v, votedPlayer s = Some v →
      truthy (isEliminated v) = false ∧
      withIsEliminated (Some true) v ∈ players s
}.

(** ** Concrete rosters and a concrete session *)

(** Four players are entered; the samples pick the category [food], the
    word [rice] and the roster position 1 (Bob) as the only spy. *)
Definition lobby : list Event :=
  [ TypeName "Ann"; AddPlayerBtn "a1"; TypeName "Bob"; AddPlayerBtn "b2";
    TypeName "Cy"; AddPlayerBtn "c3"; TypeName "Dee"; AddPlayerBtn "d4" ].
Definition start : Event :=
  StartBtn [mkSample 0 1; mkSample 1 2; mkSample 1 4].
Definition revealAll : list Event :=
  [ RevealBtn; NextPlayerBtn; RevealBtn; NextPlayerBtn;
    RevealBtn; NextPlayerBtn; RevealBtn; NextPlayerBtn ].

(** Right after the start: phase [reveal], nothing shown yet. *)
Definition afterStart : State :=
  run demoCategories initial (lobby ++ [start]).
(** Two seconds into play, Ann (row 0) has just been voted out. *)
Definition afterVote : State :=
  run demoCategories afterStart
    (revealAll ++ [Tick; Tick; VoteScreenBtn; VoteBtn 0]).
(** The round went on and the voting screen is open a second time. *)
Definition secondVoting : State :=
  run demoCategories afterVote [ContinueBtn; Tick; VoteScreenBtn].
(** The round was ended by hand ... *)
Definition beforeReset : State :=
  run demoCategories secondVoting [BackBtn; EndGameBtn].
(** ... and the session reset. *)
Definition afterReset : State :=
  run demoCategories beforeReset [ResetBtn].

Definition threePlayers : list Player :=
  [ mkPlayer "a1" "Ann" player false None;
    mkPlayer "b2" "Bob" player false None;
    mkPlayer "c3" "Cy" player false None ].

Definition fourPlayers : list Player :=
  threePlayers ++ [ mkPlayer "d4" "Dee" player false None ].


(** One non-spy against one spy, after the vote against Ann. *)
Definition oneAgainstOne : State :=
  mkState elimination_result
    [ mkPlayer "a1" "Ann" player true (Some true);
      mkPlayer "b2" "Bob" spy true None;
      mkPlayer "c3" "Cy" player true None ]
    "" (Some "rice") "food" 2 true 298%Z false 1
    (Some (mkPlayer "a1" "Ann" player true None)) None.

(** ** The round invariant *)

(** [const spyPlayers = players.filter(p => p.role === 'spy')], the list
    the summary screen shows. *)
Definition spyPlayers (s : State) : list Player :=
  filter (λ p, role p = spy) (players s).

(** The phases that come after the reveal. *)
Definition afterReveal (g : GameState) : Prop :=
  g = playing ∨ g = voting ∨ g = elimination_result ∨ g = summary.

(** The stored word is a word of the stored category of [CATEGORIES]
    ([undefined] standing for a category without words). *)
Definition wordFrom (C : list Category) (s : State) : Prop :=
  ∃ c, c ∈ C ∧ selectedCategory s = category_name c ∧
       match selectedWord s with
       | Some w => w ∈ words c
       | None => words c = []
       end.

(** What the handlers keep true of the session, phase by phase. *)
Record RoundInv (C : list Category) (s : State) : Prop := mkRoundInv {
  rd_spyCount : spyCount s = 1 ∨ spyCount s = 2;
  rd_time : (0 ≤ timeLeft s ≤ 300)%Z;
  rd_timer :
    isTimerActive s = true → gameState s = playing ∨ gameState s = voting;
  rd_names :
    ∀ p, p ∈ players s → name p ≠ "" ∧ trim (name p) = name p;
  rd_setup :
    gameState s = setup →
    ∀ p, p ∈ players s → role p = player ∧ hasSeenRole p = false;
  rd_reveal :
    gameState s = reveal →
    currentPlayerIndex s < length (players s) ∧
    ∀ i p, players s !! i = Some p →
      hasSeenRole p = bool_decide (i < currentPlayerIndex s);
  rd_seen :
    afterReveal (gameState s) → ∀ p, p ∈ players s → hasSeenRole p = true;
  rd_spies :
    gameState s ≠ setup →
    length (spyPlayers s) = Nat.min (spyCount s) (length (players s) - 1);
  rd_victory :
    match victoryType s with
    | None => True
    | Some victory_players =>
        gameState s = summary ∧ length (remainingSpies (players s)) = 0
    | Some victory_spies =>
        gameState s = summary ∧
        0 < length (remainingSpies (players s)) ∧
        length (remainingPlayers (players s))
          ≤ length (remainingSpies (players s))
    end;
  rd_word : gameState s ≠ setup → wordFrom C s;
  rd_result : gameState s = elimination_result → is_Some (votedPlayer s);
  rd_voters :
    gameState s = reveal ∨ gameState s = playing ∨ gameState s = voting →
    3 ≤ length (votingList s)
}.

(** The reveal of [n] players in turn: show the role, pass the device. *)
Definition revealTurns (n : nat) : list Event :=
  mjoin (replicate n [RevealBtn; NextPlayerBtn]).

(** The concrete session with all four roles revealed: play has begun. *)
Definition inPlay : State :=
  run demoCategories afterStart revealAll.
(** ... and the session in which the first vote goes against Bob, the
    spy, and the result has been acknowledged. *)
Definition spyCaught : State :=
  run demoCategories inPlay [VoteScreenBtn; VoteBtn 1; ContinueBtn].

(** * Properties *)

(** ** Drawing the spies *)

Lemma floorRandom_lt r n : validSample r → 0 < n → floorRandom r n < n.
Proof.
  unfold validSample, floorRandom. intros Hr Hn.
  apply Nat.Div0.div_lt_upper_bound. nia.
Qed.

Lemma pickSpies_spec n actual rs : ∀ acc l,
  0 < n → Forall validSample rs →
  NoDup acc → Forall (λ i, i < n) acc → length acc ≤ actual →
  pickSpies n actual acc rs = Some l →
  NoDup l ∧ Forall (λ i, i < n) l ∧ length l = actual.
Proof.
  induction rs as [|r rs IH]; intros acc l Hn Hrs Hnd Hlt Hlen; simpl.
  - case_bool_decide; [done|]. intros [= <-]. repeat split; [done..|lia].
  - case_bool_decide as Hc; [|intros [= <-]; repeat split; [done..|lia]].
    apply Forall_cons in Hrs as [Hr Hrs].
    case_bool_decide as Hin.
    + apply IH; done.
    + apply IH; try done.
      * apply NoDup_app. repeat split; [done| |apply NoDup_singleton].
        intros x Hx ->%list_elem_of_singleton. done.
      * apply Forall_app. split; [done|].
        apply Forall_singleton. by apply floorRandom_lt.
      * rewrite length_app. simpl. lia.
Qed.

(** The players that [assignRoles] makes spies are counted by the indices
    that were drawn. *)
Lemma assignRoles_spies_from (idxs : list nat) (ps : list Player) : ∀ k,
  length (filter (λ p, role p = spy)
            (imap (λ i p, mkPlayer (id p) (name p)
                     (if bool_decide (k + i ∈ idxs) then spy else player)
                     false (isEliminated p)) ps))
  = length (filter (λ i, i ∈ idxs) (seq k (length ps))).
Proof.
  induction ps as [|p ps IH]; intros k; [done|].
  cbn [imap length seq]. rewrite !filter_cons. cbn [role].
  rewrite Nat.add_0_r.
  assert (Htl : imap ((λ i p0, mkPlayer (id p0) (name p0)
                 (if bool_decide (k + i ∈ idxs) then spy else player)
                 false (isEliminated p0)) ∘ S) ps
          = imap (λ i p0, mkPlayer (id p0) (name p0)
                 (if bool_decide (S k + i ∈ idxs) then spy else player)
                 false (isEliminated p0)) ps).
  { apply imap_ext. intros i x _. simpl. by rewrite Nat.add_succ_r. }
  rewrite Htl.
  case_bool_decide; repeat case_decide; try done; cbn [length];
    by rewrite (IH (S k)).
Qed.

Lemma assignRoles_spies (idxs : list nat) (ps : list Player) :
  NoDup idxs → Forall (λ i, i < length ps) idxs →
  length (filter (λ p, role p = spy) (assignRoles idxs ps)) = length idxs.
Proof.
  intros Hnd Hlt. unfold assignRoles.
  pose proof (assignRoles_spies_from idxs ps 0) as Hfrom.
  cbn [Nat.add] in Hfrom. rewrite Hfrom.
  apply Permutation_length, NoDup_Permutation;
    [apply NoDup_filter, NoDup_seq|done|].
  intros x. rewrite list_elem_of_filter, elem_of_seq.
  rewrite Forall_forall in Hlt. split; [tauto|].
  intros Hx. split; [done|]. specialize (Hlt x Hx). lia.
Qed.

Lemma assignRoles_lookup idxs ps i p' :
  assignRoles idxs ps !! i = Some p' →
  ∃ p, ps !! i = Some p ∧
       p' = mkPlayer (id p) (name p)
              (if bool_decide (i ∈ idxs) then spy else player)
              false (isEliminated p).
Proof.
  unfold assignRoles. rewrite list_lookup_imap.
  destruct (ps !! i) as [p|]; simpl; [|done].
  intros [= <-]. eauto.
Qed.

Lemma assignRoles_length idxs ps : length (assignRoles idxs ps) = length ps.
Proof. apply length_imap. Qed.

(** What a call of [startGame] that got past the guard has done. *)
Lemma startGame_Ok C s rs s' :
  3 ≤ length (players s) → startGame C s rs = Ok s' →
  ∃ rc rw rs' category spyIndices,
    rs = rc :: rw :: rs' ∧
    C !! floorRandom rc (length C) = Some category ∧
    pickSpies (length (players s))
      (Nat.min (spyCount s) (length (players s) - 1)) [] rs'
      = Some spyIndices ∧
    s' = mkState reveal (assignRoles spyIndices (players s))
           (newPlayerName s)
           (words category !! floorRandom rw (length (words category)))
           (category_name category) 0 false 300%Z (isTimerActive s)
           (spyCount s) (votedPlayer s) (victoryType s).
Proof.
  intros Hn. unfold startGame.
  case_bool_decide; [lia|].
  destruct rs as [|rc [|rw rs']]; [done..|].
  destruct (C !! _) as [category|] eqn:Hc; [|done].
  destruct (pickSpies _ _ _ _) as [spyIndices|] eqn:Hp; [|done].
  intros [= <-]. by exists rc, rw, rs', category, spyIndices.
Qed.

(** C1.  With at least three players and a configured spy count of 1 or 2,
    a call of [startGame] that returns has made exactly
    [min(spyCount, players.length - 1)] players spies: they sit at that
    many distinct positions of the roster, and every player at another
    position has the role [player]. *)
Theorem startGame_assigns_spies C s rs s' (N k : nat) :
  length (players s) = N → 3 ≤ N →
  spyCount s = k → k = 1 ∨ k = 2 →
  Forall validSample rs →
  startGame C s rs = Ok s' →
  length (players s') = N ∧
  length (filter (λ p, role p = spy) (players s')) = Nat.min k (N - 1) ∧
  ∃ spyIndices : list nat,
    NoDup spyIndices ∧
    length spyIndices = Nat.min k (N - 1) ∧
    Forall (λ i, i < N) spyIndices ∧
    ∀ i p, players s' !! i = Some p →
      role p = if bool_decide (i ∈ spyIndices) then spy else player.
Proof.
  intros HN H3 Hk Hk12 Hrs Hstart.
  apply startGame_Ok in Hstart as (rc & rw & rs' & cat & idxs & -> & _ & Hp & ->);
    [|lia].
  apply Forall_cons in Hrs as [_ [_ Hrs]%Forall_cons].
  apply pickSpies_spec in Hp as (Hnd & Hlt & Hlen);
    [|lia|done|apply NoDup_nil_2|apply Forall_nil_2|simpl; lia].
  rewrite HN, Hk in *. cbn [players].
  split; [by rewrite assignRoles_length|].
  split; [rewrite assignRoles_spies; [done|done|by rewrite HN]|].
  exists idxs. repeat split; [done..|].
  intros i p (p0 & _ & ->)%assignRoles_lookup. done.
Qed.

Lemma startGame_assigns_spies_witness :
  ∃ s', startGame demoCategories
          (initial |> setPlayers fourPlayers |> setSpyCount 2)
          [mkSample 1 2; mkSample 0 1; mkSample 3 4; mkSample 3 4;
           mkSample 1 4] = Ok s' ∧
        length (filter (λ p, role p = spy) (players s')) = 2.
Proof.
  eexists. split; [vm_compute; reflexivity|].
  eapply (startGame_assigns_spies demoCategories
            (initial |> setPlayers fourPlayers |> setSpyCount 2)
            [mkSample 1 2; mkSample 0 1; mkSample 3 4; mkSample 3 4;
             mkSample 1 4] _ 4 2);
    [reflexivity|lia|reflexivity|by right| |vm_compute; reflexivity].
  repeat constructor; vm_compute; lia.
Defined.

Lemma floorRandom_exact i n : 0 < n → floorRandom (mkSample i n) n = i.
Proof. intros Hn. unfold floorRandom. simpl. apply Nat.div_mul. lia. Qed.

Lemma pickSpies_in_order n a : ∀ m k,
  0 < n → k + m = n → k ≤ a → a ≤ n →
  pickSpies n a (seq 0 k) ((λ i, mkSample i n) <$> seq k m) = Some (seq 0 a).
Proof.
  induction m as [|m IH]; intros k Hn Hkm Hka Han; simpl.
  - rewrite length_seq. case_bool_decide; [lia|]. f_equal. f_equal. lia.
  - rewrite length_seq. case_bool_decide; [|f_equal; f_equal; lia].
    rewrite floorRandom_exact by done.
    rewrite bool_decide_eq_false_2 by (rewrite elem_of_seq; lia).
    replace (seq 0 k ++ [k]) with (seq 0 (S k)) by (by rewrite seq_S).
    apply IH; lia.
Qed.

(** The loop of [startGame] does end on suitable samples: for every roster
    and every non-empty category list there are values of [Math.random]
    on which the call returns. *)
Lemma startGame_can_return C s :
  C ≠ [] → ∃ rs s', Forall validSample rs ∧ startGame C s rs = Ok s'.
Proof.
  intros HC.
  destruct (decide (length (players s) < 3)) as [Hlt|Hge].
  { exists [], s. split; [done|]. unfold startGame.
    by rewrite bool_decide_eq_true_2. }
  set (n := length (players s)).
  exists (mkSample 0 1 :: mkSample 0 1 ::
          ((λ i, mkSample i n) <$> seq 0 n)).
  unfold startGame. rewrite bool_decide_eq_false_2 by done.
  destruct C as [|c C']; [done|].
  change (floorRandom (mkSample 0 1) (length (c :: C'))) with
    (Nat.div (0 * length (c :: C')) 1).
  rewrite Nat.mul_0_l. cbn [Nat.div Nat.divmod fst lookup list_lookup].
  fold n.
  pose proof (pickSpies_in_order n (Nat.min (spyCount s) (n - 1)) n 0) as Hp.
  change (seq 0 0) with (@nil nat) in Hp.
  rewrite Hp by (unfold n in *; lia).
  eexists. split; [|reflexivity].
  repeat (apply Forall_cons; split; [unfold validSample; simpl; lia|]).
  apply Forall_fmap, Forall_forall. intros i Hi%elem_of_seq.
  unfold validSample. simpl. lia.
Qed.

(** ** After an elimination *)

(** C2.  In the phase [elimination_result], [continueAfterElimination]
    looks at the spies and the non-spies that are not eliminated: with no
    spy left the players win and the phase is [summary]; otherwise, with
    no more non-spies than spies (a tie included), the spies win and the
    phase is [summary]; otherwise the phase is [playing] again, the timer
    is switched on and the voted player is cleared. *)
Theorem continueAfterElimination_outcome s :
  gameState s = elimination_result →
  let s' := continueAfterElimination s in
  let nSpies := length (remainingSpies (players s)) in
  let nPlayers := length (remainingPlayers (players s)) in
  (nSpies = 0 →
     victoryType s' = Some victory_players ∧ gameState s' = summary) ∧
  (nSpies ≠ 0 → nPlayers ≤ nSpies →
     victoryType s' = Some victory_spies ∧ gameState s' = summary) ∧
  (nSpies ≠ 0 → nSpies < nPlayers →
     gameState s' = playing ∧ isTimerActive s' = true ∧
     votedPlayer s' = None ∧ victoryType s' = victoryType s) ∧
  players s' = players s.
Proof.
  intros _. cbv zeta. unfold continueAfterElimination.
  repeat case_bool_decide; simpl; repeat split; intros; done || lia.
Qed.

Lemma continueAfterElimination_outcome_witness :
  length (remainingSpies (players oneAgainstOne)) = 1 ∧
  length (remainingPlayers (players oneAgainstOne)) = 1 ∧
  victoryType (continueAfterElimination oneAgainstOne) = Some victory_spies ∧
  gameState (continueAfterElimination oneAgainstOne) = summary.
Proof.
  split; [reflexivity|]. split; [reflexivity|].
  apply (continueAfterElimination_outcome oneAgainstOne);
    [reflexivity|vm_compute; lia|vm_compute; lia].
Defined.

(** ** Too few players *)

(** C10.  In the phase [setup] with fewer than three players, [startGame]
    returns at its guard with every state cell as it was, whatever the
    samples, and so does a press of the start button. *)
Theorem startGame_too_few C s rs :
  gameState s = setup → length (players s) < 3 →
  startGame C s rs = Ok s ∧ dispatch C (StartBtn rs) s = s.
Proof.
  intros Hsetup Hlen. unfold dispatch, startGame. rewrite Hsetup.
  by rewrite !bool_decide_eq_true_2.
Qed.

Lemma startGame_too_few_witness :
  startGame demoCategories
    (initial |> setPlayers [mkPlayer "a1" "Ann" player false None])
    [mkSample 0 1; mkSample 0 1; mkSample 0 1]
  = Ok (initial |> setPlayers [mkPlayer "a1" "Ann" player false None]).
Proof.
  apply (startGame_too_few demoCategories
           (initial |> setPlayers [mkPlayer "a1" "Ann" player false None]));
    [reflexivity|simpl; lia].
Defined.

(** ** The countdown *)

Lemma ticks_S n s : ticks (S n) s = timerEffect (tick (ticks n s)).
Proof. reflexivity. Qed.

Lemma ticks_running s n :
  isTimerActive s = true → (0 < timeLeft s)%Z →
  (Z.of_nat n ≤ timeLeft s)%Z →
  ticks n s = s |> setTimeLeft (timeLeft s - Z.of_nat n)%Z
                |> setIsTimerActive (bool_decide (Z.of_nat n < timeLeft s)%Z).
Proof.
  intros Hact Hpos. induction n as [|n IH]; intros Hn.
  - destruct s as [g ps nn w c i v t a k vp vt]; simpl in *. subst a.
    unfold setIsTimerActive, setTimeLeft; simpl.
    rewrite bool_decide_eq_true_2 by lia. f_equal. lia.
  - rewrite ticks_S, IH by lia.
    unfold timerEffect, tick, setIsTimerActive, setTimeLeft; simpl.
    rewrite (bool_decide_eq_true_2 (Z.of_nat n < timeLeft s)%Z) by lia.
    simpl.
    rewrite (bool_decide_eq_true_2 (0 < timeLeft s - Z.of_nat n)%Z) by lia.
    simpl.
    destruct (decide (Z.of_nat (S n) < timeLeft s)%Z).
    + rewrite (bool_decide_eq_true_2 (0 < _)%Z) by lia.
      rewrite (bool_decide_eq_true_2 (Z.of_nat (S n) < _)%Z) by lia.
      f_equal. lia.
    + rewrite (bool_decide_eq_false_2 (0 < _)%Z) by lia.
      rewrite (bool_decide_eq_true_2 (_ = 0)%Z) by lia.
      rewrite (bool_decide_eq_false_2 (Z.of_nat (S n) < _)%Z) by lia.
      simpl. f_equal. lia.
Qed.

Lemma step_Tick C s : step C s Tick = timerEffect (tick s).
Proof. unfold step, dispatch. by destruct (gameState s). Qed.

(** [ticks] is a run of [Tick] events, on whatever screen. *)
Lemma run_ticks C n s : run C s (replicate n Tick) = ticks n s.
Proof.
  induction n as [|n IH]; [done|].
  rewrite replicate_S_end. unfold run in *.
  by rewrite foldl_snoc, IH, step_Tick.
Qed.

(** The seconds field of [formatTime] for every remainder below 60. *)
Lemma padStart_seconds (k : nat) :
  k < 60 →
  String.length (padStart 2 "0"%char (pretty (Z.of_nat k))) = 2 ∧
  (padStart 2 "0"%char (pretty (Z.of_nat k)) = pretty (Z.of_nat k) ∨
   padStart 2 "0"%char (pretty (Z.of_nat k)) = "0" +:+ pretty (Z.of_nat k)).
Proof.
  intros Hk.
  assert (Hall : Forall (λ k : nat,
            String.length (padStart 2 "0"%char (pretty (Z.of_nat k))) = 2 ∧
            (padStart 2 "0"%char (pretty (Z.of_nat k)) = pretty (Z.of_nat k) ∨
             padStart 2 "0"%char (pretty (Z.of_nat k))
               = "0" +:+ pretty (Z.of_nat k))) (seq 0 60)).
  { refine (bool_decide_unpack _ _). vm_compute. exact I. }
  rewrite Forall_forall in Hall. apply Hall, elem_of_seq. lia.
Qed.

(** C9.  From 300 seconds with the timer running in the phase [playing],
    every firing of the interval takes exactly one second off; after 300
    firings the remaining time is 0 and the effect has switched the timer
    off, the phase still being [playing].  [formatTime] prints the whole
    minutes, a colon, and the seconds within the minute padded with a zero
    to two characters, which is [0:00] at zero. *)
Theorem timer_countdown s :
  timeLeft s = 300%Z → isTimerActive s = true → gameState s = playing →
  (∀ n, n < 300 →
     isTimerActive (ticks n s) = true ∧
     timeLeft (ticks (S n) s) = (timeLeft (ticks n s) - 1)%Z) ∧
  (∀ n, n ≤ 300 → timeLeft (ticks n s) = (300 - Z.of_nat n)%Z ∧
                  gameState (ticks n s) = playing) ∧
  timeLeft (ticks 300 s) = 0%Z ∧
  isTimerActive (ticks 300 s) = false ∧
  formatTime (timeLeft (ticks 300 s)) = "0:00" ∧
  ∀ t, (0 ≤ t)%Z →
    ∃ ss, formatTime t = pretty (t `div` 60)%Z +:+ ":" +:+ ss ∧
          String.length ss = 2 ∧
          (ss = pretty (t `mod` 60)%Z ∨ ss = "0" +:+ pretty (t `mod` 60)%Z).
Proof.
  intros Ht Hact Hplay.
  assert (Hrun : ∀ n, n ≤ 300 →
            ticks n s = s |> setTimeLeft (300 - Z.of_nat n)%Z
                          |> setIsTimerActive (bool_decide (n < 300))).
  { intros n Hn. rewrite ticks_running by (done || lia). rewrite Ht.
    f_equal. apply bool_decide_ext. lia. }
  split; [|split; [|split; [|split; [|split]]]].
  - intros n Hn. rewrite !Hrun by lia. simpl.
    split; [by rewrite bool_decide_eq_true_2|lia].
  - intros n Hn. by rewrite Hrun.
  - by rewrite Hrun.
  - by rewrite Hrun.
  - by rewrite Hrun.
  - intros t Hpos. unfold formatTime.
    rewrite Z.rem_mod_nonneg by lia.
    assert (Hk : (t `mod` 60)%Z = Z.of_nat (Z.to_nat (t `mod` 60)%Z))
      by (rewrite Z2Nat.id; [done|apply Z.mod_pos_bound; lia]).
    destruct (padStart_seconds (Z.to_nat (t `mod` 60)%Z)) as [Hlen Hss].
    { pose proof (Z.mod_pos_bound t 60). lia. }
    rewrite Hk. eexists. split; [reflexivity|]. by split.
Qed.

Lemma timer_countdown_witness :
  timeLeft (ticks 300 (initial |> setGameState playing
                               |> setIsTimerActive true)) = 0%Z ∧
  isTimerActive (ticks 300 (initial |> setGameState playing
                                    |> setIsTimerActive true)) = false.
Proof.
  pose proof (timer_countdown
                (initial |> setGameState playing |> setIsTimerActive true)
                eq_refl eq_refl eq_refl) as H.
  split; apply H.
Defined.

(** ** Invariants of the reachable states *)

Section Reachable.

Variable C : list Category.

Lemma Inv_initial : Inv initial.
Proof.
  split; simpl; try done.
  all: try (by intros _ p Hp; apply elem_of_nil in Hp).
  all: try (by intros [? [=]]).
Qed.

Lemma Inv_timerEffect s : Inv s → Inv (timerEffect s).
Proof.
  intros [H1 H2 H3 H4]. unfold timerEffect.
  repeat case_match; split; done.
Qed.

Lemma Inv_tick s : Inv s → Inv (tick s).
Proof.
  intros [H1 H2 H3 H4]. unfold tick.
  repeat case_match; split; done.
Qed.

Lemma Inv_addPlayer freshId s :
  gameState s = setup → Inv s → Inv (addPlayer freshId s).
Proof.
  intros Hs [H1 H2 H3 H4]. unfold addPlayer. case_bool_decide; [|by split].
  split; simpl; try done.
  - intros _ p [Hp| ->%list_elem_of_singleton]%elem_of_app; [by apply H1|done].
  - intros v Hv. destruct (H3 (ex_intro _ v Hv)); congruence.
Qed.

Lemma Inv_removePlayer i s :
  gameState s = setup → Inv s → Inv (removePlayer i s).
Proof.
  intros Hs [H1 H2 H3 H4]. split; simpl; try done.
  - intros _ p [_ Hp]%list_elem_of_filter. by apply H1.
  - intros v Hv. destruct (H3 (ex_intro _ v Hv)); congruence.
Qed.

Lemma Inv_startGame s rs s' :
  gameState s = setup → Inv s → startGame C s rs = Ok s' → Inv s'.
Proof.
  intros Hs [H1 H2 H3 H4] Hstart.
  destruct (decide (length (players s) < 3)) as [Hlt|Hge].
  - unfold startGame in Hstart. rewrite bool_decide_eq_true_2 in Hstart by done.
    injection Hstart as <-. by split.
  - apply startGame_Ok in Hstart as (? & ? & ? & ? & idxs & _ & _ & _ & ->);
      [|lia].
    split; simpl; try done.
    + intros _. rewrite assignRoles_length. lia.
    + intros Hv. destruct (H3 Hv); congruence.
    + intros v Hv. destruct (H3 (ex_intro _ v Hv)); congruence.
Qed.

Lemma Inv_nextPlayer s s' :
  gameState s = reveal → Inv s → nextPlayer s = Ok s' → Inv s'.
Proof.
  intros Hs [H1 H2 H3 H4]. unfold nextPlayer.
  assert (Hnone : ∀ v, votedPlayer s = Some v → False).
  { intros v Hv. destruct (H3 (ex_intro _ v Hv)); congruence. }
  destruct (players s !! _); [|done].
  case_bool_decide; intros [= <-]; split; simpl;
    rewrite ?length_alter; try done; try (by intros; apply H2; congruence);
    try (by intros [v Hv]; destruct (Hnone v Hv));
    try (by intros v Hv; destruct (Hnone v Hv)).
  congruence.
Qed.

Lemma Inv_handleVote p s :
  gameState s = voting → p ∈ votingList s → Inv s → Inv (handleVote p s).
Proof.
  intros Hs [Hp Hin]%list_elem_of_filter [H1 H2 H3 H4].
  split; simpl; try done.
  - rewrite length_fmap. intros _. apply H2. congruence.
  - by left.
  - intros v [= <-]. split; [done|].
    apply list_elem_of_fmap. exists p.
    by rewrite bool_decide_eq_true_2.
Qed.

Lemma Inv_continueAfterElimination s :
  gameState s = elimination_result → Inv s → Inv (continueAfterElimination s).
Proof.
  intros Hs [H1 H2 H3 H4]. unfold continueAfterElimination.
  repeat case_bool_decide; split; simpl; try done;
    try (by intros; apply H2; congruence); try (by right);
    try (by intros [? [=]]).
Qed.

Lemma Inv_resetGame s : Inv s → Inv (resetGame s).
Proof.
  intros _. split; simpl; try done.
  all: try (by intros _ p (q & -> & _)%list_elem_of_fmap).
  all: try (by intros [? [=]]).
Qed.

Lemma Inv_dispatch e s : Inv s → Inv (dispatch C e s).
Proof.
  intros HI.
  assert (Hnone : gameState s ≠ elimination_result → gameState s ≠ summary →
                  ∀ v, votedPlayer s = Some v → False).
  { intros ? ? v Hv. destruct (inv_voted_phase s HI (ex_intro _ v Hv)); done. }
  unfold dispatch.
  destruct (gameState s) eqn:Hs, e; try done; try (by apply Inv_tick).
  - destruct HI. split; done.
  - by apply Inv_addPlayer.
  - destruct (players s !! row); [by apply Inv_removePlayer|done].
  - case_bool_decide; [|done]. destruct HI. split; done.
  - case_bool_decide; [done|].
    destruct (startGame C s rs) eqn:Hst; simpl; try done.
    by eapply Inv_startGame.
  - destruct (isRoleVisible s); [done|]. destruct HI. split; done.
  - destruct (negb (isRoleVisible s)); [done|].
    destruct (nextPlayer s) eqn:Hn; simpl; try done.
    by eapply Inv_nextPlayer.
  - destruct HI as [H1 H2 H3 H4]. split; simpl; rewrite ?Hs in *; done.
  - destruct HI as [H1 H2 H3 H4]. split; simpl; rewrite ?Hs in *; try done.
    + intros _. by apply H2.
    + intros [v Hv]. destruct (Hnone ltac:(done) ltac:(done) v Hv).
  - destruct HI as [H1 H2 H3 H4]. split; simpl; rewrite ?Hs in *; try done.
    + intros _. by apply H2.
    + by right.
  - destruct (votingList s !! row) as [p|] eqn:Hrow; [|done].
    apply Inv_handleVote; [done| |done]. by eapply list_elem_of_lookup_2.
  - destruct HI as [H1 H2 H3 H4]. split; simpl; rewrite ?Hs in *; try done.
    + intros _. by apply H2.
    + intros [v Hv]. destruct (Hnone ltac:(done) ltac:(done) v Hv).
  - destruct (votedPlayer s); [|done]. by apply Inv_continueAfterElimination.
  - by apply Inv_resetGame.
Qed.

Lemma Inv_step e s : Inv s → Inv (step C s e).
Proof. intros. by apply Inv_timerEffect, Inv_dispatch. Qed.

Lemma reachable_Inv s : reachable C s → Inv s.
Proof.
  induction 1 as [|s e _ IH _]; [apply Inv_initial|by apply Inv_step].
Qed.

Lemma reachable_run s es :
  reachable C s → Forall validEvent es → reachable C (run C s es).
Proof.
  intros Hs Hes. revert s Hs.
  induction Hes as [|e es He _ IH]; intros s Hs; [done|].
  simpl. apply IH. by constructor.
Qed.

End Reachable.

Lemma lobby_start_valid : Forall validEvent (lobby ++ [start]).
Proof. repeat constructor; vm_compute; lia. Qed.

Lemma reachable_afterStart : reachable demoCategories afterStart.
Proof.
  apply reachable_run; [constructor|apply lobby_start_valid].
Qed.

Lemma reachable_afterVote : reachable demoCategories afterVote.
Proof.
  apply reachable_run; [apply reachable_afterStart|].
  repeat constructor.
Qed.

Lemma reachable_secondVoting : reachable demoCategories secondVoting.
Proof.
  apply reachable_run; [apply reachable_afterVote|].
  repeat constructor.
Qed.

Lemma reachable_beforeReset : reachable demoCategories beforeReset.
Proof.
  apply reachable_run; [apply reachable_secondVoting|].
  repeat constructor.
Qed.

Lemma reachable_afterReset : reachable demoCategories afterReset.
Proof.
  apply reachable_run; [apply reachable_beforeReset|].
  repeat constructor.
Qed.

(** ** The flags at the start of a round *)


(** ** Advancing the reveal *)

Lemma timerEffect_idemp s : timerEffect (timerEffect s) = timerEffect s.
Proof.
  unfold timerEffect.
  destruct (isTimerActive s) eqn:Ha; simpl;
    repeat (case_bool_decide; simpl; rewrite ?Ha; simpl); done.
Qed.

(** Every reachable state has had its timer effect run. *)
Lemma reachable_settled C s : reachable C s → timerEffect s = s.
Proof. intros [|s' e _ _]; [done|apply timerEffect_idemp]. Qed.

(** C4.  In the phase [reveal] with [isRoleVisible] false, that is,
    before the role of the current player has been shown, advancing to the
    next player is rejected: [nextPlayer] is only called by the
    next-player button, which is disabled then, and the press leaves every
    state cell as it was, so the reveal index, the phase and every
    [hasSeenRole] flag are unchanged. *)
Theorem nextPlayerBtn_disabled C s :
  gameState s = reveal → isRoleVisible s = false →
  dispatch C NextPlayerBtn s = s ∧
  (reachable C s → step C s NextPlayerBtn = s).
Proof.
  intros Hs Hv. assert (Hd : dispatch C NextPlayerBtn s = s).
  { unfold dispatch. by rewrite Hs, Hv. }
  split; [done|]. intros Hr. unfold step. rewrite Hd.
  by eapply reachable_settled.
Qed.

Lemma nextPlayerBtn_disabled_witness :
  step demoCategories afterStart NextPlayerBtn = afterStart.
Proof.
  apply (nextPlayerBtn_disabled demoCategories afterStart);
    [reflexivity|reflexivity|apply reachable_afterStart].
Defined.

(** ** Votes *)

(** The rows of the voting screen are roster entries that are not
    eliminated. *)
Lemma votingList_elem s p :
  p ∈ votingList s ↔ truthy (isEliminated p) = false ∧ p ∈ players s.
Proof. unfold votingList. by rewrite list_elem_of_filter. Qed.

(** A vote for a player of the voting list does run [handleVote]. *)
Lemma castVote_listed C s target :
  gameState s = voting → target ∈ votingList s →
  castVote C target s = handleVote target s.
Proof.
  intros Hs Hin. unfold castVote.
  destruct (list_find_elem_of (λ p, p = target) (votingList s) target Hin
              eq_refl) as [[row p] Hfind].
  rewrite Hfind. apply list_find_Some in Hfind as (Hrow & -> & _).
  unfold dispatch. by rewrite Hs, Hrow.
Qed.

(** C6.  In the phase [voting], a vote for a player who is eliminated
    already, or who is not in the roster, is rejected: the voting screen,
    from which alone [handleVote] is called, has no row for that player,
    and the vote leaves every state cell as it was, so no elimination flag
    changes, the phase stays [voting] and the voted player is not set. *)
Theorem castVote_rejected C s target :
  gameState s = voting →
  truthy (isEliminated target) = true ∨ target ∉ players s →
  castVote C target s = s ∧
  players (castVote C target s) = players s ∧
  gameState (castVote C target s) = voting ∧
  votedPlayer (castVote C target s) = votedPlayer s ∧
  ∀ row, votingList s !! row ≠ Some target.
Proof.
  intros Hs Htarget.
  assert (Hnot : target ∉ votingList s).
  { rewrite votingList_elem. intros [Hlive Hin].
    destruct Htarget as [Helim|Habsent]; [congruence|done]. }
  assert (Hcast : castVote C target s = s).
  { unfold castVote.
    destruct (list_find _ _) as [[row p]|] eqn:Hfind; [|done].
    apply list_find_Some in Hfind as (Hrow & -> & _).
    destruct Hnot. by eapply list_elem_of_lookup_2. }
  rewrite Hcast. repeat split; try done.
  intros row Hrow. destruct Hnot. by eapply list_elem_of_lookup_2.
Qed.

Lemma castVote_rejected_witness :
  castVote demoCategories (mkPlayer "a1" "Ann" player true (Some true))
    secondVoting = secondVoting ∧
  castVote demoCategories (mkPlayer "z9" "Zed" player true None)
    secondVoting = secondVoting.
Proof.
  assert (Hs : gameState secondVoting = voting) by (vm_compute; reflexivity).
  split.
  - apply (castVote_rejected demoCategories secondVoting
             (mkPlayer "a1" "Ann" player true (Some true)) Hs).
    left. reflexivity.
  - apply (castVote_rejected demoCategories secondVoting
             (mkPlayer "z9" "Zed" player true None) Hs).
    right. intros Hin. vm_compute in Hin.
    repeat (apply elem_of_cons in Hin as [Hin|Hin]; [discriminate|]).
    by apply elem_of_nil in Hin.
Defined.

(** ** Reset *)





(** ** The selected word *)

(** After the reset the session is in [setup] and still holds the word of
    the round that was played. *)
Lemma selectedWord_after_reset :
  reachable demoCategories afterReset ∧
  gameState afterReset = setup ∧
  selectedWord afterReset = Some "rice".
Proof. split; [apply reachable_afterReset|done]. Qed.

Lemma selectedWord_timerEffect s :
  selectedWord (timerEffect s) = selectedWord s.
Proof. unfold timerEffect. by repeat case_match. Qed.

Lemma selectedWord_nextPlayer s s' :
  nextPlayer s = Ok s' → selectedWord s' = selectedWord s.
Proof.
  unfold nextPlayer. destruct (players s !! _); [|done].
  by case_bool_decide; intros [= <-].
Qed.

(** C7, as the code has it.  The selected word is the empty string in the
    initial state.  Only [startGame] stores a word: any event other than a
    press of the start button, and [resetGame] in particular, leaves the
    word (and [resetGame] the category too) as it was, so that in [setup]
    after a round the word of that round is still selected. *)
Theorem selectedWord_kept C s e :
  (∀ rs, e ≠ StartBtn rs) →
  selectedWord initial = Some "" ∧
  selectedWord (step C s e) = selectedWord s ∧
  selectedWord (resetGame s) = selectedWord s ∧
  selectedCategory (resetGame s) = selectedCategory s.
Proof.
  intros He. repeat split.
  unfold step. rewrite selectedWord_timerEffect. unfold dispatch.
  destruct (gameState s), e as [text|freshId|row|count|rs| | | | | |row| | | |];
    try done; try (by unfold tick; repeat case_match).
  - unfold addPlayer. by case_bool_decide.
  - by destruct (He rs).
  - destruct (negb (isRoleVisible s)); [done|].
    destruct (nextPlayer s) eqn:Hn; simpl; try done.
    by apply selectedWord_nextPlayer.
  - unfold continueAfterElimination.
    destruct (votedPlayer s); [|done]. by repeat case_bool_decide.
Qed.

Lemma selectedWord_kept_witness :
  selectedWord (step demoCategories beforeReset ResetBtn)
  = selectedWord beforeReset.
Proof.
  assert (He : ∀ rs, ResetBtn ≠ StartBtn rs) by (intros rs; discriminate).
  pose proof (selectedWord_kept demoCategories beforeReset ResetBtn He)
    as (_ & H & _).
  exact H.
Defined.

(** ** The voted player *)

(** Right after the vote against Ann the stored voted player is the object
    the voting screen listed, without the flag, while the roster entry of
    the same id has [isEliminated] set. *)
Lemma votedPlayer_differs_from_roster :
  reachable demoCategories afterVote ∧
  gameState afterVote = elimination_result ∧
  votedPlayer afterVote = Some (mkPlayer "a1" "Ann" player true None) ∧
  players afterVote !! 0 = Some (mkPlayer "a1" "Ann" player true (Some true)) ∧
  isEliminated (mkPlayer "a1" "Ann" player true None)
    ≠ isEliminated (mkPlayer "a1" "Ann" player true (Some true)).
Proof. split; [apply reachable_afterVote|done]. Qed.

(** C8, as the code has it.  In every reachable state that holds a voted
    player, the roster has an entry with the same id, name, role and
    [hasSeenRole]; that entry has [isEliminated] set to [true], while the
    voted player is the object from before the vote, whose flag is not
    set.  A voted player is held in [elimination_result] and [summary]
    only. *)
Theorem votedPlayer_snapshot C s v :
  reachable C s → votedPlayer s = Some v →
  (gameState s = elimination_result ∨ gameState s = summary) ∧
  truthy (isEliminated v) = false ∧
  ∃ p, p ∈ players s ∧
       id p = id v ∧ name p = name v ∧ role p = role v ∧
       hasSeenRole p = hasSeenRole v ∧ isEliminated p = Some true.
Proof.
  intros Hr Hv. pose proof (reachable_Inv C s Hr) as HI.
  split; [apply (inv_voted_phase _ HI); by exists v|].
  destruct (inv_voted _ HI v Hv) as [Hf Hin].
  split; [done|]. by exists (withIsEliminated (Some true) v).
Qed.

Lemma votedPlayer_snapshot_witness :
  ∃ p, p ∈ players afterVote ∧ id p = "a1" ∧ name p = "Ann" ∧
       isEliminated p = Some true.
Proof.
  destruct (votedPlayer_snapshot demoCategories afterVote
              (mkPlayer "a1" "Ann" player true None)
              reachable_afterVote eq_refl)
    as (_ & _ & p & Hp & Hid & Hname & _ & _ & Helim).
  by exists p.
Defined.

(** * Further properties of the handlers and screens *)

(** ** Strings: [trim] and white space *)

Lemma append_String c s1 s2 : String c s1 +:+ s2 = String c (s1 +:+ s2).
Proof. reflexivity. Qed.

Lemma stripSpace_length s s' :
  stripSpace s = Some s' → String.length s' < String.length s.
Proof.
  destruct s as [|c [|d [|e s3]]]; simpl; [done|..].
  - destruct (Ascii.is_space c); [|done]. intros [= <-]. simpl. lia.
  - destruct (Ascii.is_space c); [intros [= <-]; simpl; lia|].
    destruct (_ && _); [|done]. intros [= <-]. simpl. lia.
  - destruct (Ascii.is_space c); [intros [= <-]; simpl; lia|].
    destruct (_ && _); [intros [= <-]; simpl; lia|].
    destruct (isSpace3 c d e); [|done]. intros [= <-]. simpl. lia.
Qed.

(** Induction along [stripSpace]. *)
Lemma strip_ind (P : string → Prop) :
  (∀ s, (∀ s', stripSpace s = Some s' → P s') → P s) → ∀ s, P s.
Proof.
  intros Hstep s.
  assert (H : ∀ n s, String.length s < n → P s).
  { induction n as [|n IH]; intros t Ht; [lia|].
    apply Hstep. intros t' Ht'. apply IH.
    apply stripSpace_length in Ht'. lia. }
  apply (H (S (String.length s))). lia.
Qed.

Lemma trimStartFrom_fuel n : ∀ m s,
  String.length s ≤ n → String.length s ≤ m →
  trimStartFrom n s = trimStartFrom m s.
Proof.
  induction n as [|n IH]; intros m s Hn Hm.
  - destruct s; [|simpl in Hn; lia]. by destruct m.
  - destruct m as [|m]; [destruct s; [done|simpl in Hm; lia]|].
    simpl. destruct (stripSpace s) as [s'|] eqn:Hs; [|done].
    apply stripSpace_length in Hs. apply IH; lia.
Qed.

Lemma trimStart_unfold s :
  trimStart s = match stripSpace s with
                | Some s' => trimStart s'
                | None => s
                end.
Proof.
  unfold trimStart. destruct s as [|c s]; [done|].
  change (String.length (String c s)) with (S (String.length s)).
  cbn [trimStartFrom]. destruct (stripSpace (String c s)) as [s'|] eqn:Hs;
    [|done].
  apply stripSpace_length in Hs. simpl in Hs. apply trimStartFrom_fuel; lia.
Qed.

Lemma blankFrom_fuel n : ∀ m s,
  String.length s ≤ n → String.length s ≤ m →
  blankFrom n s = blankFrom m s.
Proof.
  induction n as [|n IH]; intros m s Hn Hm.
  - destruct s; [|simpl in Hn; lia]. by destruct m.
  - destruct m as [|m]; [destruct s; [done|simpl in Hm; lia]|].
    simpl. destruct s as [|c s]; [done|].
    destruct (stripSpace (String c s)) as [s'|] eqn:Hs; [|done].
    apply stripSpace_length in Hs. apply IH; lia.
Qed.

Lemma blank_unfold s :
  blank s = match s with
            | EmptyString => true
            | String _ _ =>
                match stripSpace s with
                | Some s' => blank s'
                | None => false
                end
            end.
Proof.
  unfold blank. destruct s as [|c s]; [done|].
  change (String.length (String c s)) with (S (String.length s)).
  cbn [blankFrom]. destruct (stripSpace (String c s)) as [s'|] eqn:Hs;
    [|done].
  apply stripSpace_length in Hs. simpl in Hs. apply blankFrom_fuel; lia.
Qed.

Lemma stripSpace_trimStart s : stripSpace (trimStart s) = None.
Proof.
  induction s as [s IH] using strip_ind. rewrite trimStart_unfold.
  destruct (stripSpace s) as [s'|] eqn:Hs; [by apply IH|done].
Qed.

Lemma trimStart_id s : stripSpace s = None → trimStart s = s.
Proof. intros Hs. by rewrite trimStart_unfold, Hs. Qed.

Lemma blank_trimStart s : blank (trimStart s) = blank s.
Proof.
  induction s as [s IH] using strip_ind.
  rewrite trimStart_unfold, (blank_unfold s).
  destruct (stripSpace s) as [s'|] eqn:Hs.
  - destruct s; [done|]. by apply IH.
  - rewrite blank_unfold, Hs. by destruct s.
Qed.

Lemma trimStart_blank s : trimStart s = "" ↔ blank s = true.
Proof.
  induction s as [s IH] using strip_ind.
  rewrite trimStart_unfold, (blank_unfold s).
  destruct (stripSpace s) as [s'|] eqn:Hs.
  - destruct s; [done|]. by apply IH.
  - by destruct s.
Qed.

Lemma stripSpace_append u r b :
  stripSpace u = Some r → stripSpace (u +:+ b) = Some (r +:+ b).
Proof.
  destruct u as [|c [|d [|e u3]]]; [done|..]; rewrite ?append_String; simpl.
  - destruct (Ascii.is_space c); [|done]. by intros [= <-].
  - destruct (Ascii.is_space c); [by intros [= <-]|].
    destruct b; simpl; (destruct (_ && _); [by intros [= <-]|done]).
  - destruct (Ascii.is_space c); [by intros [= <-]|].
    destruct (_ && _); [by intros [= <-]|].
    destruct (isSpace3 c d e); [by intros [= <-]|done].
Qed.

Lemma blank_append a b :
  blank a = true → blank b = true → blank (a +:+ b) = true.
Proof.
  induction a as [a IH] using strip_ind. intros Ha Hb.
  rewrite blank_unfold in Ha. destruct a as [|c a]; [done|].
  destruct (stripSpace (String c a)) as [a'|] eqn:Hs; [|done].
  rewrite blank_unfold, append_String.
  rewrite <- append_String, (stripSpace_append _ a') by done.
  by apply IH.
Qed.

Lemma trimEnd_split t : ∃ b, t = trimEnd t +:+ b ∧ blank b = true.
Proof.
  induction t as [|c t (b & Hb & Hblank)]; [by exists ""|].
  simpl. destruct (blank (String c t)) eqn:Ht; [by exists (String c t)|].
  exists b. by rewrite append_String, <- Hb.
Qed.

Lemma trimEnd_empty t : trimEnd t = "" ↔ blank t = true.
Proof. destruct t as [|c t]; [done|]. simpl. by destruct (blank _). Qed.

Lemma trimEnd_idemp t : trimEnd (trimEnd t) = trimEnd t.
Proof.
  induction t as [|c t IH]; [done|].
  simpl. destruct (blank (String c t)) eqn:Ht; [done|].
  simpl. destruct (blank (String c (trimEnd t))) eqn:Hu; [|by rewrite IH].
  destruct (trimEnd_split t) as (b & Hb & Hblank).
  assert (blank (String c t) = true); [|congruence].
  rewrite Hb, <- append_String. by apply blank_append.
Qed.

Lemma stripSpace_trimEnd t :
  stripSpace t = None → stripSpace (trimEnd t) = None.
Proof.
  intros Ht. destruct (stripSpace (trimEnd t)) as [r|] eqn:Hr; [|done].
  destruct (trimEnd_split t) as (b & Hb & _).
  apply (stripSpace_append _ _ b) in Hr. rewrite <- Hb in Hr. congruence.
Qed.

Lemma trim_idemp s : trim (trim s) = trim s.
Proof.
  unfold trim. rewrite (trimStart_id (trimEnd _)).
  - apply trimEnd_idemp.
  - apply stripSpace_trimEnd, stripSpace_trimStart.
Qed.

Lemma trim_blank s : trim s = "" ↔ blank s = true.
Proof. unfold trim. by rewrite trimEnd_empty, blank_trimStart. Qed.

(** A trimmed string neither begins nor ends with white space. *)
Lemma stripSpace_trim s : stripSpace (trim s) = None.
Proof. apply stripSpace_trimEnd, stripSpace_trimStart. Qed.

(** ** The round invariant holds in every reachable state *)

Lemma roles_alter_seen i (ps : list Player) :
  role <$> alter (withHasSeenRole true) i ps = role <$> ps.
Proof.
  revert i. induction ps as [|p ps IH]; intros [|i]; simpl; [done..|].
  f_equal. apply IH.
Qed.

Lemma spies_by_roles (ps : list Player) :
  length (filter (λ p, role p = spy) ps)
  = length (filter (λ r, r = spy) (role <$> ps)).
Proof.
  induction ps as [|p ps IH]; [done|].
  rewrite fmap_cons, !filter_cons. repeat case_decide; simpl; congruence.
Qed.

Lemma spies_same_roles (ps qs : list Player) :
  role <$> ps = role <$> qs →
  length (filter (λ p, role p = spy) ps)
  = length (filter (λ p, role p = spy) qs).
Proof. intros H. by rewrite !spies_by_roles, H. Qed.

Lemma voters_by_flags (ps : list Player) :
  length (filter (λ p, truthy (isEliminated p) = false) ps)
  = length (filter (λ e, truthy e = false) (isEliminated <$> ps)).
Proof.
  induction ps as [|p ps IH]; [done|].
  rewrite fmap_cons, !filter_cons. repeat case_decide; simpl; congruence.
Qed.

Lemma voters_same_flags (ps qs : list Player) :
  isEliminated <$> ps = isEliminated <$> qs →
  length (filter (λ p, truthy (isEliminated p) = false) ps)
  = length (filter (λ p, truthy (isEliminated p) = false) qs).
Proof. intros H. by rewrite !voters_by_flags, H. Qed.

Lemma flags_alter_seen i (ps : list Player) :
  isEliminated <$> alter (withHasSeenRole true) i ps = isEliminated <$> ps.
Proof.
  revert i. induction ps as [|p ps IH]; intros [|i]; simpl; [done..|].
  f_equal. apply IH.
Qed.

Lemma flags_assignRoles idxs (ps : list Player) :
  isEliminated <$> assignRoles idxs ps = isEliminated <$> ps.
Proof.
  apply list_eq. intros i. unfold assignRoles.
  rewrite !list_lookup_fmap, list_lookup_imap. by destruct (ps !! i).
Qed.

Lemma filter_all {A} (P : A → Prop) `{∀ x, Decision (P x)} (l : list A) :
  (∀ x, x ∈ l → P x) → filter P l = l.
Proof.
  induction l as [|x l IH]; intros Hall; [done|].
  rewrite filter_cons, decide_True by (apply Hall; left).
  f_equal. apply IH. intros y Hy. apply Hall. by right.
Qed.

(** The voting list is made of the spies and the non-spies that are left. *)
Lemma votingList_partition (ps : list Player) :
  length (filter (λ p, truthy (isEliminated p) = false) ps)
  = length (remainingSpies ps) + length (remainingPlayers ps).
Proof.
  unfold remainingSpies, remainingPlayers.
  induction ps as [|p ps IH]; [done|].
  rewrite !filter_cons. destruct p as [? ? r ? e]; simpl.
  destruct r, (truthy e); simpl;
    repeat (rewrite decide_True by naive_solver
            || rewrite decide_False by naive_solver);
    simpl; lia.
Qed.

(** Closes the fields of the invariant that the phase at hand rules out or
    leaves as they were. *)
Ltac phase_trivial :=
  try done; try lia;
  try (by unfold afterReveal in *; intuition congruence).

Section RoundInvariant.

Variable C : list Category.

Lemma RoundInv_initial : RoundInv C initial.
Proof.
  split; simpl; phase_trivial; try (by left).
  all: try (by intros p Hp; apply elem_of_nil in Hp).
  all: try (by intros _ p Hp; apply elem_of_nil in Hp).
Qed.

Lemma RoundInv_victory_None s :
  RoundInv C s → gameState s ≠ summary → victoryType s = None.
Proof.
  intros HI Hs. pose proof (rd_victory C s HI) as Hv.
  destruct (victoryType s) as [[]|]; [by destruct Hv..|done].
Qed.

Lemma RoundInv_timerEffect s : RoundInv C s → RoundInv C (timerEffect s).
Proof.
  intros []. unfold timerEffect.
  destruct (_ && _); [by split|]. case_bool_decide; split; simpl; done.
Qed.

Lemma RoundInv_tick s : RoundInv C s → RoundInv C (tick s).
Proof.
  intros []. unfold tick.
  destruct (_ && _) eqn:Hc; [|by split].
  apply andb_prop in Hc as [_ Hc%bool_decide_eq_true].
  split; simpl; try done. lia.
Qed.

Lemma RoundInv_addPlayer freshId s :
  gameState s = setup → RoundInv C s → RoundInv C (addPlayer freshId s).
Proof.
  intros Hs HI. pose proof (RoundInv_victory_None s HI) as Hv.
  rewrite Hs in Hv. specialize (Hv ltac:(done)).
  destruct HI. unfold addPlayer. case_bool_decide as Hn; [|by split].
  split; simpl; rewrite ?Hv; phase_trivial.
  - intros p [Hp| ->%list_elem_of_singleton]%elem_of_app; [by auto|].
    simpl. split; [done|apply trim_idemp].
  - intros _ p [Hp| ->%list_elem_of_singleton]%elem_of_app; [by auto|done].
Qed.

Lemma RoundInv_removePlayer i s :
  gameState s = setup → RoundInv C s → RoundInv C (removePlayer i s).
Proof.
  intros Hs HI. pose proof (RoundInv_victory_None s HI) as Hv.
  rewrite Hs in Hv. specialize (Hv ltac:(done)).
  destruct HI. split; simpl; rewrite ?Hv; phase_trivial.
  - intros p [_ Hp]%list_elem_of_filter. auto.
  - intros _ p [_ Hp]%list_elem_of_filter. auto.
Qed.

Lemma RoundInv_startGame s rs s' :
  gameState s = setup → 3 ≤ length (players s) → Forall validSample rs →
  (∀ p, p ∈ players s → truthy (isEliminated p) = false) →
  RoundInv C s → startGame C s rs = Ok s' → RoundInv C s'.
Proof.
  intros Hs Hn Hrs Hnone HI Hstart.
  pose proof (RoundInv_victory_None s HI) as Hv.
  rewrite Hs in Hv. specialize (Hv ltac:(done)).
  apply startGame_Ok in Hstart
    as (rc & rw & rs' & cat & idxs & -> & Hcat & Hp & ->); [|done].
  apply Forall_cons in Hrs as [_ [Hrw Hrs]%Forall_cons].
  apply pickSpies_spec in Hp as (Hnd & Hlt & Hlen);
    [|lia|done|apply NoDup_nil_2|apply Forall_nil_2|simpl; lia].
  destruct HI. split; simpl; rewrite ?Hv; phase_trivial.
  - intros p [i (q & Hq & ->)%assignRoles_lookup]%list_elem_of_lookup_1.
    simpl. eauto using list_elem_of_lookup_2.
  - intros _. rewrite assignRoles_length. split; [lia|].
    intros i p (q & _ & ->)%assignRoles_lookup. done.
  - intros _. unfold spyPlayers. simpl.
    by rewrite assignRoles_spies, assignRoles_length.
  - intros _. exists cat. split; [by eapply list_elem_of_lookup_2|].
    split; [done|]. simpl.
    destruct (words cat !! _) as [w|] eqn:Hw;
      [by eapply list_elem_of_lookup_2|].
    apply lookup_ge_None in Hw.
    destruct (words cat) as [|w ws] eqn:Hws; [done|].
    pose proof (floorRandom_lt rw (length (w :: ws)) Hrw) as Hlt'.
    simpl in *. lia.
  - intros _. unfold votingList. simpl.
    rewrite (voters_same_flags _ (players s)) by apply flags_assignRoles.
    by rewrite filter_all.
Qed.

Lemma RoundInv_nextPlayer s s' :
  gameState s = reveal → RoundInv C s → nextPlayer s = Ok s' → RoundInv C s'.
Proof.
  intros Hs HI. pose proof (RoundInv_victory_None s HI) as Hv.
  rewrite Hs in Hv. specialize (Hv ltac:(done)).
  destruct HI as [? ? ? Hnames ? Hrev ? Hspies ? Hword ? Hvoters].
  destruct (Hrev Hs) as [Hidx Hflags].
  assert (Hin : ∀ p, p ∈ alter (withHasSeenRole true) (currentPlayerIndex s)
                           (players s) →
                ∃ q, q ∈ players s ∧ name p = name q).
  { intros p [i Hp]%list_elem_of_lookup_1.
    rewrite list_lookup_alter in Hp. case_decide.
    - subst i. destruct (players s !! _) as [q|] eqn:Hq; simplify_eq/=.
      exists q. split; [|done]. by eapply list_elem_of_lookup_2.
    - exists p. split; [|done]. by eapply list_elem_of_lookup_2. }
  unfold nextPlayer. destruct (players s !! _) as [cur|]; [|done].
  case_bool_decide as Hlast; intros [= <-];
    split; simpl; rewrite ?Hv, ?length_alter; phase_trivial.
  all: try (by intros p (q & Hq & ->)%Hin; apply Hnames).
  all: try (intros _; unfold spyPlayers in *; simpl;
            rewrite (spies_same_roles _ (players s))
              by apply roles_alter_seen;
            apply Hspies; congruence).
  all: try (intros _; unfold votingList in *; simpl;
            rewrite (voters_same_flags _ (players s))
              by apply flags_alter_seen;
            apply Hvoters; auto).
  all: try (by intros _; apply Hword; congruence).
  all: try (by left).
  - intros _. split; [lia|]. intros i p Hp.
    rewrite list_lookup_alter in Hp. case_decide as Hi.
    + subst i. destruct (players s !! _); simplify_eq/=.
      by rewrite bool_decide_eq_true_2 by lia.
    + rewrite (Hflags i p Hp).
      apply bool_decide_ext.
      lia.
  - intros _ p [i Hp]%list_elem_of_lookup_1.
    rewrite list_lookup_alter in Hp. case_decide as Hi.
    + subst i. by destruct (players s !! _); simplify_eq/=.
    + pose proof (lookup_lt_Some _ _ _ Hp).
      rewrite (Hflags i p Hp). by rewrite bool_decide_eq_true_2 by lia.
Qed.

Lemma RoundInv_handleVote p s :
  gameState s = voting → RoundInv C s → RoundInv C (handleVote p s).
Proof.
  intros Hs HI. pose proof (RoundInv_victory_None s HI) as Hv.
  rewrite Hs in Hv. specialize (Hv ltac:(done)).
  destruct HI as [? ? ? Hnames ? ? Hseen Hspies ? ?].
  split; simpl; rewrite ?Hv, ?length_fmap; phase_trivial.
  - intros q (q' & -> & Hq')%list_elem_of_fmap.
    case_bool_decide; simpl; by apply Hnames.
  - intros _ q (q' & -> & Hq')%list_elem_of_fmap.
    case_bool_decide; simpl; apply Hseen; unfold afterReveal; auto.
  - intros _. unfold spyPlayers in *. simpl.
    rewrite (spies_same_roles _ (players s)); [apply Hspies; congruence|].
    rewrite <- list_fmap_compose. apply list_fmap_ext.
    intros i q _. simpl. by case_bool_decide.
Qed.

Lemma RoundInv_continueAfterElimination s :
  gameState s = elimination_result → RoundInv C s →
  RoundInv C (continueAfterElimination s).
Proof.
  intros Hs HI. pose proof (RoundInv_victory_None s HI) as Hv.
  rewrite Hs in Hv. specialize (Hv ltac:(done)).
  destruct HI as [? ? ? ? ? ? Hseen Hspies ? Hword ? ?].
  unfold continueAfterElimination.
  repeat case_bool_decide; split; simpl; rewrite ?Hv; phase_trivial.
  all: try (by intros _; apply Hseen; unfold afterReveal; auto).
  all: try (by intros _; apply Hspies; congruence).
  all: try (by intros _; apply Hword; congruence).
  all: try (by left).
  all: try (by intros _; unfold votingList; simpl;
            rewrite votingList_partition; lia).
  split; [done|lia].
Qed.

Lemma RoundInv_resetGame s :
  gameState s = summary → RoundInv C s → RoundInv C (resetGame s).
Proof.
  intros Hs HI. destruct HI as [? ? ? Hnames ? ? ? ? ? ?].
  split; simpl; phase_trivial.
  - intros q (q' & -> & Hq')%list_elem_of_fmap. simpl. by apply Hnames.
  - by intros _ q (q' & -> & Hq')%list_elem_of_fmap.
Qed.

(** The events that only set cells of their own screen. *)
Ltac round_setter s HI Hs :=
  let Hv := fresh "Hv" in
  pose proof (RoundInv_victory_None s HI) as Hv;
  rewrite Hs in Hv; specialize (Hv ltac:(done));
  let Hseen := fresh "Hseen" in
  let Hspies := fresh "Hspies" in
  destruct HI as [? ? ? ? ? ? Hseen Hspies ? ?];
  split; simpl; rewrite ?Hv; phase_trivial;
  try (by intros _; apply Hseen; unfold afterReveal; rewrite Hs; auto);
  try (by intros _; apply Hspies; congruence);
  try (by intuition congruence);
  try (by left); try (by right).

Lemma RoundInv_dispatch e s :
  validEvent e → Inv s → RoundInv C s → RoundInv C (dispatch C e s).
Proof.
  intros He HInv HI. unfold dispatch.
  destruct (gameState s) eqn:Hs,
    e as [text|freshId|row|count|rs| | | | | |row| | | |];
    try done; try (by apply RoundInv_tick).
  - round_setter s HI Hs.
  - by apply RoundInv_addPlayer.
  - destruct (players s !! row); [by apply RoundInv_removePlayer|done].
  - case_bool_decide as Hc; [|done].
    assert (count = 1 ∨ count = 2).
    { apply elem_of_cons in Hc as [->|Hc]; [by left|].
      apply list_elem_of_singleton in Hc as ->. by right. }
    round_setter s HI Hs.
  - case_bool_decide; [done|].
    destruct (startGame C s rs) eqn:Hst; simpl; try done.
    eapply RoundInv_startGame; [done|lia|exact He| |done|done].
    by apply (inv_setup _ HInv).
  - destruct (isRoleVisible s); [done|]. round_setter s HI Hs.
  - destruct (negb (isRoleVisible s)); [done|].
    destruct (nextPlayer s) eqn:Hn; simpl; try done.
    by eapply RoundInv_nextPlayer.
  - round_setter s HI Hs.
  - round_setter s HI Hs.
  - round_setter s HI Hs.
  - destruct (votingList s !! row); [by apply RoundInv_handleVote|done].
  - round_setter s HI Hs.
  - destruct (votedPlayer s); [|done].
    by apply RoundInv_continueAfterElimination.
  - by apply RoundInv_resetGame.
Qed.

Lemma reachable_RoundInv s : reachable C s → RoundInv C s.
Proof.
  induction 1 as [|s e Hs IH He]; [apply RoundInv_initial|].
  apply RoundInv_timerEffect, RoundInv_dispatch; [done| |done].
  by eapply reachable_Inv.
Qed.

End RoundInvariant.

(** ** The flags at the start of a round, in a session *)



Lemma reachable_inPlay : reachable demoCategories inPlay.
Proof.
  apply reachable_run; [apply reachable_afterStart|repeat constructor].
Qed.

(** ** The roster *)

(** X1.  A name made of white space only (the empty name included) is
    not added: [addPlayer] leaves every state cell, the input field
    included, as it was. *)
Theorem addPlayer_blank freshId s :
  blank (newPlayerName s) = true → addPlayer freshId s = s.
Proof.
  intros Hb. unfold addPlayer.
  rewrite bool_decide_eq_false_2; [done|].
  intros H. apply H. by apply trim_blank.
Qed.

Lemma addPlayer_blank_witness :
  addPlayer "a1" (initial |> setNewPlayerName (" " +:+ nbsp +:+ " "))
  = initial |> setNewPlayerName (" " +:+ nbsp +:+ " ").
Proof.
  apply (addPlayer_blank "a1"
           (initial |> setNewPlayerName (" " +:+ nbsp +:+ " "))).
  reflexivity.
Defined.

(** X2.  Every name in the roster of a reachable state is non-empty and
    trimmed: it is its own [trim], it does not begin with a white space
    character, it does not end with white space, and so it is not made of
    white space only. *)
Theorem reachable_names C s p :
  reachable C s → p ∈ players s →
  name p ≠ "" ∧ trim (name p) = name p ∧
  stripSpace (name p) = None ∧ trimEnd (name p) = name p ∧
  blank (name p) = false.
Proof.
  intros Hr Hp.
  destruct (rd_names C s (reachable_RoundInv C s Hr) p Hp) as [Hne Htrim].
  split; [done|]. split; [done|].
  split; [rewrite <- Htrim; apply stripSpace_trim|].
  split; [rewrite <- Htrim; apply trimEnd_idemp|].
  destruct (blank (name p)) eqn:Hb; [|done].
  apply trim_blank in Hb. congruence.
Qed.

Lemma reachable_names_witness :
  name (mkPlayer "a1" "Ann" player false None) ≠ "" ∧
  trim "Ann" = "Ann".
Proof.
  assert (Hin : mkPlayer "a1" "Ann" player false None ∈ players afterStart).
  { apply (list_elem_of_lookup_2 _ 0). vm_compute. reflexivity. }
  pose proof (reachable_names demoCategories afterStart _
                reachable_afterStart Hin) as (Hne & Htrim & _).
  split; [exact Hne|exact Htrim].
Defined.

(** X3.  Removing an id that no roster entry has changes nothing. *)
Theorem removePlayer_absent i s :
  (∀ p, p ∈ players s → id p ≠ i) → removePlayer i s = s.
Proof.
  intros Hall. unfold removePlayer.
  rewrite filter_all by done. by destruct s.
Qed.

Lemma removePlayer_absent_witness :
  removePlayer "z9" (initial |> setPlayers threePlayers)
  = initial |> setPlayers threePlayers.
Proof.
  apply (removePlayer_absent "z9" (initial |> setPlayers threePlayers)).
  intros p Hp. vm_compute in Hp.
  repeat (apply elem_of_cons in Hp as [->|Hp]; [discriminate|]).
  by apply elem_of_nil in Hp.
Defined.

Lemma filter_id_delete (ps : list Player) : ∀ row p,
  NoDup (id <$> ps) → ps !! row = Some p →
  filter (λ q, id q ≠ id p) ps = delete row ps.
Proof.
  induction ps as [|q ps IH]; intros row p Hnd Hrow; [done|].
  rewrite fmap_cons in Hnd. apply NoDup_cons in Hnd as [Hq Hnd].
  rewrite filter_cons. destruct row as [|row]; simpl in *.
  - injection Hrow as ->. rewrite decide_False by naive_solver.
    apply filter_all. intros x Hx Heq. apply Hq.
    rewrite <- Heq. by apply list_elem_of_fmap_2.
  - rewrite decide_True.
    + f_equal. by apply IH.
    + intros Heq. apply Hq. rewrite Heq.
      apply list_elem_of_fmap_2. by eapply list_elem_of_lookup_2.
Qed.

(** X4.  In [setup], the trash button of a row removes that row's player
    together with every other entry of the same id and keeps the rest in
    order; the roster gets shorter.  When the ids of the roster are
    pairwise different, exactly that row goes. *)
Theorem removeBtn_removes C s row p :
  gameState s = setup → players s !! row = Some p →
  players (dispatch C (RemoveBtn row) s)
    = filter (λ q, id q ≠ id p) (players s) ∧
  (p ∉ players (dispatch C (RemoveBtn row) s)) ∧
  length (players (dispatch C (RemoveBtn row) s)) < length (players s) ∧
  players (dispatch C (RemoveBtn row) s) `sublist_of` players s ∧
  (NoDup (id <$> players s) →
   players (dispatch C (RemoveBtn row) s) = delete row (players s)).
Proof.
  intros Hs Hrow. unfold dispatch. rewrite Hs, Hrow. simpl.
  pose proof (list_elem_of_lookup_2 _ _ _ Hrow) as Hin.
  split; [done|]. split; [|split; [|split]].
  - rewrite list_elem_of_filter. intros [Hne _]. by apply Hne.
  - apply (length_filter_lt _ _ p); [done|naive_solver].
  - apply sublist_filter.
  - intros Hnd. by apply filter_id_delete.
Qed.

Lemma removeBtn_removes_witness :
  players (dispatch demoCategories (RemoveBtn 1)
             (initial |> setPlayers threePlayers))
  = delete 1 threePlayers.
Proof.
  apply (removeBtn_removes demoCategories
           (initial |> setPlayers threePlayers) 1
           (mkPlayer "b2" "Bob" player false None) eq_refl eq_refl).
  vm_compute.
  repeat (apply NoDup_cons; split;
          [intros Hx; repeat (apply elem_of_cons in Hx as [Hx|Hx];
                              [discriminate|]);
           by apply elem_of_nil in Hx|]).
  apply NoDup_nil_2.
Defined.

(** ** The reveal *)

Lemma timerEffect_running s : (0 < timeLeft s)%Z → timerEffect s = s.
Proof.
  intros Ht. unfold timerEffect.
  destruct (isTimerActive s); simpl;
    [by rewrite bool_decide_eq_true_2|by rewrite bool_decide_eq_false_2 by lia].
Qed.

(** One turn of the reveal: the role is shown and the device passed on. *)
Lemma reveal_turn C s :
  gameState s = reveal → isRoleVisible s = false →
  currentPlayerIndex s < length (players s) → (0 < timeLeft s)%Z →
  run C s [RevealBtn; NextPlayerBtn]
  = if bool_decide (currentPlayerIndex s < length (players s) - 1)
    then s |> setPlayers (alter (withHasSeenRole true)
                            (currentPlayerIndex s) (players s))
           |> setCurrentPlayerIndex (currentPlayerIndex s + 1)
    else s |> setPlayers (alter (withHasSeenRole true)
                            (currentPlayerIndex s) (players s))
           |> setIsRoleVisible true
           |> setGameState playing
           |> setIsTimerActive true.
Proof.
  intros Hs Hv Hi Ht. apply lookup_lt_is_Some_2 in Hi as [p Hp].
  unfold run, step. simpl. unfold dispatch at 2. rewrite Hs, Hv.
  rewrite (timerEffect_running (setIsRoleVisible true s)) by done.
  unfold dispatch, nextPlayer. simpl. rewrite Hs, Hp.
  case_bool_decide; simpl; rewrite timerEffect_running by done;
    destruct s; simpl in *; by subst.
Qed.

Lemma revealTurns_S n :
  revealTurns (S n) = [RevealBtn; NextPlayerBtn] ++ revealTurns n.
Proof. reflexivity. Qed.

Lemma run_app C s es1 es2 : run C s (es1 ++ es2) = run C (run C s es1) es2.
Proof. apply foldl_app. Qed.

(** The reveal from the player at the index on. *)
Lemma revealTurns_from C k : ∀ s,
  gameState s = reveal → isRoleVisible s = false → (0 < timeLeft s)%Z →
  currentPlayerIndex s + S k = length (players s) →
  ∃ ps',
    run C s (revealTurns (S k))
    = s |> setPlayers ps'
        |> setCurrentPlayerIndex (length (players s) - 1)
        |> setIsRoleVisible true
        |> setGameState playing
        |> setIsTimerActive true ∧
    length ps' = length (players s) ∧
    ∀ j p, players s !! j = Some p →
      ps' !! j = Some (if bool_decide (currentPlayerIndex s ≤ j)
                       then withHasSeenRole true p else p).
Proof.
  induction k as [|k IH]; intros s Hs Hv Ht Hk.
  - exists (alter (withHasSeenRole true) (currentPlayerIndex s) (players s)).
    change (revealTurns 1) with [RevealBtn; NextPlayerBtn].
    rewrite reveal_turn by (done || lia).
    rewrite bool_decide_eq_false_2 by lia.
    split; [|split; [apply length_alter|]].
    + replace (length (players s) - 1) with (currentPlayerIndex s) by lia.
      by destruct s.
    + intros j p Hp. rewrite list_lookup_alter.
      pose proof (lookup_lt_Some _ _ _ Hp).
      case_decide; subst.
      * by rewrite Hp, bool_decide_eq_true_2.
      * by rewrite Hp, bool_decide_eq_false_2 by lia.
  - rewrite revealTurns_S, run_app, reveal_turn by (done || lia).
    rewrite bool_decide_eq_true_2 by lia.
    set (s1 := s |> setPlayers (alter (withHasSeenRole true)
                                  (currentPlayerIndex s) (players s))
                 |> setCurrentPlayerIndex (currentPlayerIndex s + 1)).
    destruct (IH s1) as (ps' & Hrun & Hlen & Hps'); try done.
    { simpl. rewrite length_alter. lia. }
    exists ps'. simpl in Hlen, Hps'. rewrite length_alter in Hlen.
    split; [|split; [done|]].
    + rewrite Hrun. simpl. rewrite length_alter. by destruct s.
    + intros j p Hp.
      destruct (decide (currentPlayerIndex s = j)) as [<-|Hne].
      * rewrite (Hps' _ (withHasSeenRole true p))
          by (by rewrite list_lookup_alter_eq, Hp).
        rewrite bool_decide_eq_false_2 by lia.
        by rewrite bool_decide_eq_true_2.
      * rewrite (Hps' _ p) by (by rewrite list_lookup_alter_ne).
        f_equal. destruct (decide (currentPlayerIndex s ≤ j)).
        -- by rewrite !bool_decide_eq_true_2 by lia.
        -- by rewrite !bool_decide_eq_false_2 by lia.
Qed.

(** X5.  From the start of the reveal (first player, role hidden, time on
    the clock), one reveal-and-next turn per player ends the reveal: the
    phase is [playing], the timer runs, every player is marked as having
    seen the role and is otherwise as before, the index is at the last
    player and the last role stays shown ([isRoleVisible] true); the other
    cells are as they were. *)
Theorem revealTurns_complete C s :
  gameState s = reveal → isRoleVisible s = false →
  currentPlayerIndex s = 0 → 0 < length (players s) → (0 < timeLeft s)%Z →
  run C s (revealTurns (length (players s)))
  = s |> setPlayers (withHasSeenRole true <$> players s)
      |> setCurrentPlayerIndex (length (players s) - 1)
      |> setIsRoleVisible true
      |> setGameState playing
      |> setIsTimerActive true.
Proof.
  intros Hs Hv Hi Hn Ht.
  destruct (length (players s)) as [|k] eqn:Hlen; [lia|].
  destruct (revealTurns_from C k s) as (ps' & Hrun & Hlen' & Hps');
    [done|done|done|lia|].
  rewrite Hrun, Hlen. do 5 f_equal.
  apply list_eq. intros j. rewrite list_lookup_fmap.
  destruct (players s !! j) as [p|] eqn:Hp; simpl.
  - rewrite (Hps' j p Hp), Hi. by rewrite bool_decide_eq_true_2 by lia.
  - apply lookup_ge_None. apply lookup_ge_None in Hp. lia.
Qed.

Lemma revealTurns_complete_witness :
  run demoCategories afterStart (revealTurns 4)
  = afterStart |> setPlayers (withHasSeenRole true <$> players afterStart)
               |> setCurrentPlayerIndex 3
               |> setIsRoleVisible true
               |> setGameState playing
               |> setIsTimerActive true.
Proof.
  apply (revealTurns_complete demoCategories afterStart);
    [reflexivity|reflexivity|reflexivity|vm_compute; lia|vm_compute; reflexivity].
Defined.

(** X6.  In every reachable state of the phase [reveal] the reveal index
    points into the roster, so that [nextPlayer] returns and does not
    throw; the players before the index are marked as having seen their
    role and those from the index on are not. *)
Theorem reveal_index_in_range C s :
  reachable C s → gameState s = reveal →
  currentPlayerIndex s < length (players s) ∧
  (∃ s', nextPlayer s = Ok s') ∧
  ∀ i p, players s !! i = Some p →
    hasSeenRole p = bool_decide (i < currentPlayerIndex s).
Proof.
  intros Hr Hs.
  destruct (rd_reveal C s (reachable_RoundInv C s Hr) Hs) as [Hi Hflags].
  split; [done|]. split; [|done].
  unfold nextPlayer. apply lookup_lt_is_Some_2 in Hi as [p ->].
  case_bool_decide; eauto.
Qed.

Lemma reveal_index_in_range_witness :
  ∃ s', nextPlayer afterStart = Ok s'.
Proof.
  apply (reveal_index_in_range demoCategories afterStart
           reachable_afterStart eq_refl).
Defined.

(** X7.  In every reachable state after the reveal (phases [playing],
    [voting], [elimination_result], [summary]) every player is marked as
    having seen the role. *)
Theorem all_seen_after_reveal C s p :
  reachable C s → afterReveal (gameState s) → p ∈ players s →
  hasSeenRole p = true.
Proof.
  intros Hr Hs Hp. by apply (rd_seen C s (reachable_RoundInv C s Hr)).
Qed.

Lemma all_seen_after_reveal_witness :
  hasSeenRole (mkPlayer "b2" "Bob" spy true None) = true.
Proof.
  apply (all_seen_after_reveal demoCategories inPlay _ reachable_inPlay).
  - left. reflexivity.
  - apply (list_elem_of_lookup_2 _ 1). vm_compute. reflexivity.
Defined.

(** ** Votes and the voting list *)

Lemma votes_filter (p : Player) (ps : list Player) :
  filter (λ q, truthy (isEliminated q) = false)
    ((λ q, if bool_decide (id q = id p)
           then withIsEliminated (Some true) q else q) <$> ps)
  = filter (λ q, id q ≠ id p)
      (filter (λ q, truthy (isEliminated q) = false) ps).
Proof.
  induction ps as [|q ps IH]; [done|].
  rewrite fmap_cons, !filter_cons, IH.
  case_bool_decide as Hid; simpl.
  - destruct (decide (truthy (isEliminated q) = false)); [|done].
    by rewrite filter_cons, decide_False by naive_solver.
  - destruct (decide (truthy (isEliminated q) = false)); [|done].
    by rewrite filter_cons, decide_True.
Qed.

Lemma NoDup_ids_filter (P : Player → Prop) `{∀ q, Decision (P q)}
    (ps : list Player) :
  NoDup (id <$> ps) → NoDup (id <$> filter P ps).
Proof.
  induction ps as [|q ps IH]; [done|].
  rewrite fmap_cons, NoDup_cons. intros [Hq Hnd].
  rewrite filter_cons. destruct (decide (P q)); [|by apply IH].
  rewrite fmap_cons, NoDup_cons. split; [|by apply IH].
  intros (x & Hx & [_ Hin]%list_elem_of_filter)%list_elem_of_fmap.
  apply Hq. rewrite Hx. by apply list_elem_of_fmap_2.
Qed.

(** X8.  A vote for a listed player takes that player, and every other
    listed entry of the same id, off the voting list and keeps the other
    rows in order, so the list gets strictly shorter; ids, names and roles
    of the roster stay as they are.  With pairwise different ids the list
    loses exactly one row. *)
Theorem handleVote_listed p s :
  p ∈ votingList s →
  votingList (handleVote p s) = filter (λ q, id q ≠ id p) (votingList s) ∧
  length (votingList (handleVote p s)) < length (votingList s) ∧
  id <$> players (handleVote p s) = id <$> players s ∧
  name <$> players (handleVote p s) = name <$> players s ∧
  role <$> players (handleVote p s) = role <$> players s ∧
  (NoDup (id <$> players s) →
   length (votingList (handleVote p s)) + 1 = length (votingList s)).
Proof.
  intros Hp.
  assert (Hvl : votingList (handleVote p s)
                = filter (λ q, id q ≠ id p) (votingList s)).
  { unfold votingList. simpl. apply votes_filter. }
  split; [done|]. rewrite Hvl.
  split; [apply (length_filter_lt _ _ p); [done|naive_solver]|].
  assert (Hkeep : ∀ (A : Type) (f : Player → A),
            (∀ q e, f (withIsEliminated e q) = f q) →
            f <$> players (handleVote p s) = f <$> players s).
  { intros A f Hf. simpl. rewrite <- list_fmap_compose.
    apply list_fmap_ext. intros i q _. simpl. by case_bool_decide. }
  split; [by apply Hkeep|]. split; [by apply Hkeep|].
  split; [by apply Hkeep|].
  intros Hnd. apply list_elem_of_lookup_1 in Hp as [row Hrow].
  rewrite (filter_id_delete _ row p); [| |done].
  - rewrite length_delete by eauto.
    pose proof (lookup_lt_Some _ _ _ Hrow). lia.
  - by apply NoDup_ids_filter.
Qed.

Lemma handleVote_listed_witness :
  length (votingList (handleVote (mkPlayer "a1" "Ann" player true None)
                        inPlay)) + 1
  = length (votingList inPlay).
Proof.
  assert (Hin : mkPlayer "a1" "Ann" player true None ∈ votingList inPlay).
  { apply (list_elem_of_lookup_2 _ 0). vm_compute. reflexivity. }
  apply (handleVote_listed _ inPlay Hin).
  vm_compute.
  repeat (apply NoDup_cons; split;
          [intros Hx; repeat (apply elem_of_cons in Hx as [Hx|Hx];
                              [discriminate|]);
           by apply elem_of_nil in Hx|]).
  apply NoDup_nil_2.
Defined.

(** X9.  Elimination accounting: the voting list is made of the remaining
    spies and the remaining non-spies, and together with the eliminated
    players it makes up the whole roster. *)
Theorem elimination_accounting s :
  length (votingList s)
  = length (remainingSpies (players s))
    + length (remainingPlayers (players s)) ∧
  length (remainingSpies (players s))
  + length (remainingPlayers (players s))
  + length (filter (λ p, truthy (isEliminated p) = true) (players s))
  = length (players s).
Proof.
  split; [apply votingList_partition|].
  rewrite <- votingList_partition.
  induction (players s) as [|p ps IH]; [done|].
  rewrite !filter_cons.
  destruct (truthy (isEliminated p)); simpl;
    repeat (rewrite decide_True by done || rewrite decide_False by done);
    simpl; lia.
Qed.

(** X10.  In every reachable state of the phases [reveal], [playing] and
    [voting] at least three players are not eliminated, so the voting
    screen never comes up with fewer than three rows. *)
Theorem at_least_three_voters C s :
  reachable C s →
  gameState s = reveal ∨ gameState s = playing ∨ gameState s = voting →
  3 ≤ length (votingList s).
Proof.
  intros Hr Hs. by apply (rd_voters C s (reachable_RoundInv C s Hr)).
Qed.

Lemma at_least_three_voters_witness : 3 ≤ length (votingList secondVoting).
Proof.
  apply (at_least_three_voters demoCategories secondVoting
           reachable_secondVoting).
  right. right. reflexivity.
Defined.

(** X11.  In every reachable state of the phase [elimination_result] a
    voted player is stored: the result screen is rendered, and its button
    does run [continueAfterElimination]. *)
Theorem result_screen_live C s :
  reachable C s → gameState s = elimination_result →
  is_Some (votedPlayer s) ∧
  dispatch C ContinueBtn s = continueAfterElimination s.
Proof.
  intros Hr Hs.
  destruct (rd_result C s (reachable_RoundInv C s Hr) Hs) as [v Hv].
  split; [by exists v|]. unfold dispatch. by rewrite Hs, Hv.
Qed.

Lemma result_screen_live_witness :
  dispatch demoCategories ContinueBtn afterVote
  = continueAfterElimination afterVote.
Proof.
  apply (result_screen_live demoCategories afterVote
           reachable_afterVote eq_refl).
Defined.

(** ** The timer *)

Lemma timer_bounds_aux C s :
  reachable C s →
  (0 ≤ timeLeft s ≤ 300)%Z ∧
  (isTimerActive s = true →
   (0 < timeLeft s)%Z ∧ (gameState s = playing ∨ gameState s = voting)).
Proof.
  intros Hr. pose proof (reachable_RoundInv C s Hr) as HI.
  pose proof (rd_time C s HI) as Ht. split; [done|].
  intros Ha. split; [|by apply (rd_timer C s HI)].
  pose proof (reachable_settled C s Hr) as Hset.
  unfold timerEffect in Hset. rewrite Ha in Hset. simpl in Hset.
  destruct (decide (0 < timeLeft s)%Z) as [|Hn]; [done|].
  rewrite bool_decide_eq_false_2 in Hset by done.
  rewrite bool_decide_eq_true_2 in Hset by lia.
  apply (f_equal isTimerActive) in Hset. simpl in Hset. congruence.
Qed.

(** X12.  In every reachable state the remaining time lies between 0 and
    300 seconds, and the timer is switched on only in the phases [playing]
    and [voting] and only with time left. *)
Theorem timer_bounds C s :
  reachable C s →
  (0 ≤ timeLeft s ≤ 300)%Z ∧
  (isTimerActive s = true →
   (0 < timeLeft s)%Z ∧ (gameState s = playing ∨ gameState s = voting)).
Proof. apply timer_bounds_aux. Qed.

Lemma timer_bounds_witness : (0 ≤ timeLeft secondVoting ≤ 300)%Z.
Proof.
  apply (timer_bounds demoCategories secondVoting reachable_secondVoting).
Defined.

Lemma string_length_append (s1 s2 : string) :
  String.length (s1 +:+ s2) = String.length s1 + String.length s2.
Proof.
  induction s1 as [|c s1 IH]; [done|].
  rewrite append_String. simpl. by rewrite IH.
Qed.

Lemma string_app_inj_length (a1 a2 b1 b2 : string) :
  a1 +:+ b1 = a2 +:+ b2 → String.length b1 = String.length b2 →
  a1 = a2 ∧ b1 = b2.
Proof.
  revert a2. induction a1 as [|c a1 IH]; intros [|c2 a2] Heq Hlen.
  - done.
  - exfalso. apply (f_equal String.length) in Heq.
    rewrite !string_length_append in Heq. simpl in Heq. lia.
  - exfalso. apply (f_equal String.length) in Heq.
    rewrite !string_length_append in Heq. simpl in Heq. lia.
  - rewrite !append_String in Heq. injection Heq as -> Heq.
    destruct (IH a2 Heq Hlen) as [-> ->]. done.
Qed.

Lemma padStart_seconds_inj (k1 k2 : nat) :
  k1 < 60 → k2 < 60 →
  padStart 2 "0"%char (pretty (Z.of_nat k1))
  = padStart 2 "0"%char (pretty (Z.of_nat k2)) →
  k1 = k2.
Proof.
  intros H1 H2.
  assert (Hall : Forall (λ k1 : nat, Forall (λ k2 : nat,
            padStart 2 "0"%char (pretty (Z.of_nat k1))
            = padStart 2 "0"%char (pretty (Z.of_nat k2)) → k1 = k2)
            (seq 0 60)) (seq 0 60)).
  { refine (bool_decide_unpack _ _). vm_compute. exact I. }
  rewrite Forall_forall in Hall.
  specialize (Hall k1 ltac:(apply elem_of_seq; lia)).
  rewrite Forall_forall in Hall.
  apply Hall, elem_of_seq. lia.
Qed.

(** X13.  [formatTime] is injective on the non-negative numbers of
    seconds: two different times are never shown as the same text. *)
Theorem formatTime_inj (t1 t2 : Z) :
  (0 ≤ t1)%Z → (0 ≤ t2)%Z → formatTime t1 = formatTime t2 → t1 = t2.
Proof.
  intros H1 H2. unfold formatTime.
  rewrite !Z.rem_mod_nonneg by lia.
  pose proof (Z.mod_pos_bound t1 60 ltac:(lia)) as Hm1.
  pose proof (Z.mod_pos_bound t2 60 ltac:(lia)) as Hm2.
  rewrite <- (Z2Nat.id (t1 `mod` 60)%Z), <- (Z2Nat.id (t2 `mod` 60)%Z) by lia.
  destruct (padStart_seconds (Z.to_nat (t1 `mod` 60)%Z)) as [Hl1 _]; [lia|].
  destruct (padStart_seconds (Z.to_nat (t2 `mod` 60)%Z)) as [Hl2 _]; [lia|].
  intros Heq.
  apply string_app_inj_length in Heq as [Hmin Hsec].
  - apply (inj pretty) in Hmin.
    apply (inj (String.app ":")) in Hsec.
    apply padStart_seconds_inj in Hsec; [|lia..].
    rewrite (Z.div_mod t1 60), (Z.div_mod t2 60) by lia. lia.
  - rewrite !string_length_append. simpl. lia.
Qed.

Lemma formatTime_inj_witness : (65 = 65)%Z.
Proof.
  apply (formatTime_inj 65 65); [lia|lia|reflexivity].
Defined.

(** X14.  In every reachable state the clock text has four characters:
    one digit of minutes, the colon and two digits of seconds. *)
Theorem clock_text_length C s :
  reachable C s → String.length (formatTime (timeLeft s)) = 4.
Proof.
  intros Hr. pose proof (rd_time C s (reachable_RoundInv C s Hr)) as Ht.
  assert (Hall : Forall (λ k : nat,
            String.length (formatTime (Z.of_nat k)) = 4) (seq 0 301)).
  { refine (bool_decide_unpack _ _). vm_compute. exact I. }
  rewrite Forall_forall in Hall.
  rewrite <- (Z2Nat.id (timeLeft s)) by lia.
  apply Hall, elem_of_seq. lia.
Qed.

Lemma clock_text_length_witness :
  String.length (formatTime (timeLeft secondVoting)) = 4.
Proof.
  apply (clock_text_length demoCategories secondVoting
           reachable_secondVoting).
Defined.

Lemma timerEffect_setGameState g s :
  timerEffect s = s → timerEffect (setGameState g s) = setGameState g s.
Proof.
  unfold timerEffect. simpl.
  destruct (_ && _); [done|]. case_bool_decide; [|done].
  intros Hs. by rewrite <- Hs at 2.
Qed.

(** X15.  On the playing screen of a reachable state, pausing and resuming
    (two presses of the timer button) gives the state back; when the time
    has run out, one press already changes nothing: the timer cannot be
    started again at zero. *)
Theorem toggle_twice C s :
  reachable C s → gameState s = playing →
  run C s [ToggleTimerBtn; ToggleTimerBtn] = s ∧
  (timeLeft s = 0%Z → step C s ToggleTimerBtn = s).
Proof.
  intros Hr Hs.
  destruct (timer_bounds_aux C s Hr) as [Ht Ha].
  assert (Hzero : timeLeft s = 0%Z → step C s ToggleTimerBtn = s).
  { intros H0. unfold step, dispatch. rewrite Hs.
    destruct (isTimerActive s) eqn:Hact; [specialize (Ha eq_refl); lia|].
    unfold timerEffect. simpl. rewrite bool_decide_eq_false_2 by lia.
    rewrite bool_decide_eq_true_2 by done.
    destruct s; simpl in *; by subst. }
  split; [|done].
  destruct (decide (timeLeft s = 0%Z)) as [H0|Hpos].
  - unfold run. simpl. by rewrite !Hzero.
  - assert (Hstep : ∀ s', gameState s' = playing → timeLeft s' = timeLeft s →
              step C s' ToggleTimerBtn
              = setIsTimerActive (negb (isTimerActive s')) s').
    { intros s' Hs' Ht'. unfold step, dispatch. rewrite Hs'.
      apply timerEffect_running. simpl. lia. }
    unfold run. simpl. rewrite (Hstep s), Hstep by done.
    destruct s as [? ? ? ? ? ? ? ? a ? ? ?]; simpl. by destruct a.
Qed.

Lemma toggle_twice_witness :
  run demoCategories inPlay [ToggleTimerBtn; ToggleTimerBtn] = inPlay.
Proof.
  apply (toggle_twice demoCategories inPlay reachable_inPlay eq_refl).
Defined.

(** X16.  On the playing screen of a reachable state, opening the voting
    screen and going back gives the state back. *)
Theorem vote_screen_and_back C s :
  reachable C s → gameState s = playing →
  run C s [VoteScreenBtn; BackBtn] = s.
Proof.
  intros Hr Hs. pose proof (reachable_settled C s Hr) as Hset.
  assert (H1 : step C s VoteScreenBtn = setGameState voting s).
  { unfold step, dispatch. rewrite Hs. by apply timerEffect_setGameState. }
  assert (H2 : step C (setGameState voting s) BackBtn = setGameState playing s).
  { unfold step, dispatch. simpl.
    change (setGameState playing (setGameState voting s))
      with (setGameState playing s).
    by apply timerEffect_setGameState. }
  unfold run. simpl. rewrite H1, H2.
  destruct s; simpl in *; by subst.
Qed.

Lemma vote_screen_and_back_witness :
  run demoCategories inPlay [VoteScreenBtn; BackBtn] = inPlay.
Proof.
  apply (vote_screen_and_back demoCategories inPlay reachable_inPlay eq_refl).
Defined.

(** X17.  Opening the voting screen does not stop the clock: with the
    timer running, [n] firings of the interval on the voting screen take
    [n] seconds off, and the timer stops there when the time is used up. *)
Theorem clock_runs_while_voting C s (n : nat) :
  gameState s = playing → isTimerActive s = true →
  (0 < timeLeft s)%Z → (Z.of_nat n ≤ timeLeft s)%Z →
  run C s (VoteScreenBtn :: replicate n Tick)
  = s |> setGameState voting
      |> setTimeLeft (timeLeft s - Z.of_nat n)%Z
      |> setIsTimerActive (bool_decide (Z.of_nat n < timeLeft s)%Z).
Proof.
  intros Hs Ha Ht Hn.
  change (run C s (VoteScreenBtn :: replicate n Tick))
    with (run C (step C s VoteScreenBtn) (replicate n Tick)).
  rewrite run_ticks. unfold step, dispatch. rewrite Hs.
  rewrite timerEffect_running by done.
  by rewrite ticks_running.
Qed.

Lemma clock_runs_while_voting_witness :
  run demoCategories inPlay [VoteScreenBtn; Tick; Tick]
  = inPlay |> setGameState voting |> setTimeLeft 298%Z
           |> setIsTimerActive true.
Proof.
  apply (clock_runs_while_voting demoCategories inPlay 2);
    [reflexivity|reflexivity|vm_compute; reflexivity|vm_compute; discriminate].
Defined.

(** X18.  In a reachable state of any phase but [playing] and [voting] the
    interval is not armed: a tick changes nothing. *)
Theorem no_tick_outside_play C s :
  reachable C s → gameState s ≠ playing → gameState s ≠ voting →
  step C s Tick = s.
Proof.
  intros Hr Hp Hv. rewrite step_Tick.
  destruct (timer_bounds_aux C s Hr) as [_ Ha].
  unfold tick. destruct (isTimerActive s) eqn:Hact; simpl.
  - destruct (Ha eq_refl) as [_ [|]]; done.
  - by apply reachable_settled in Hr.
Qed.

Lemma no_tick_outside_play_witness :
  step demoCategories afterVote Tick = afterVote.
Proof.
  apply (no_tick_outside_play demoCategories afterVote reachable_afterVote);
    vm_compute; discriminate.
Defined.

(** ** The round *)

(** X19.  In every reachable state outside [setup] the stored category is
    the name of a category of [CATEGORIES] and the stored word is one of
    that category's words ([undefined] only if it has none). *)
Theorem word_from_category C s :
  reachable C s → gameState s ≠ setup →
  ∃ c, c ∈ C ∧ selectedCategory s = category_name c ∧
       match selectedWord s with
       | Some w => w ∈ words c
       | None => words c = []
       end.
Proof.
  intros Hr Hs. by apply (rd_word C s (reachable_RoundInv C s Hr)).
Qed.

Lemma word_from_category_witness :
  ∃ c, c ∈ demoCategories ∧ selectedCategory inPlay = category_name c ∧
       match selectedWord inPlay with
       | Some w => w ∈ words c
       | None => words c = []
       end.
Proof.
  apply (word_from_category demoCategories inPlay reachable_inPlay).
  vm_compute. discriminate.
Defined.

(** X20.  With three players or more and two samples or more,
    [startGame] throws exactly when [CATEGORIES] is empty. *)
Theorem startGame_TypeError_iff C s rs :
  3 ≤ length (players s) → 2 ≤ length rs → Forall validSample rs →
  startGame C s rs = TypeError ↔ C = [].
Proof.
  intros Hn Hlen Hrs. unfold startGame.
  rewrite bool_decide_eq_false_2 by lia.
  destruct rs as [|rc [|rw rs']]; [simpl in Hlen; lia..|].
  apply Forall_cons in Hrs as [Hrc _].
  destruct C as [|c C']; [done|].
  pose proof (floorRandom_lt rc (length (c :: C')) Hrc ltac:(simpl; lia))
    as Hlt.
  apply lookup_lt_is_Some_2 in Hlt as [cat ->].
  by destruct (pickSpies _ _ _ _).
Qed.

Lemma startGame_TypeError_iff_witness :
  startGame [] (initial |> setPlayers threePlayers)
    [mkSample 0 1; mkSample 0 1; mkSample 0 1] = TypeError.
Proof.
  apply (startGame_TypeError_iff [] (initial |> setPlayers threePlayers)
           [mkSample 0 1; mkSample 0 1; mkSample 0 1]);
    [simpl; lia|simpl; lia| |reflexivity].
  repeat constructor; vm_compute; lia.
Defined.

(** X21.  In every reachable state the configured spy count is 1 or 2; in
    [setup] nobody is a spy; outside [setup] the roster holds exactly as
    many spies as configured, and at least one player who is not. *)
Theorem spies_in_round C s :
  reachable C s →
  (spyCount s = 1 ∨ spyCount s = 2) ∧
  (gameState s = setup → spyPlayers s = []) ∧
  (gameState s ≠ setup →
   length (spyPlayers s) = spyCount s ∧
   length (spyPlayers s) < length (players s)).
Proof.
  intros Hr. pose proof (reachable_RoundInv C s Hr) as HI.
  pose proof (rd_spyCount C s HI) as Hk. split; [done|]. split.
  - intros Hs. unfold spyPlayers.
    destruct (filter _ _) as [|p ps] eqn:Hf; [done|].
    assert (Hp : p ∈ filter (λ p, role p = spy) (players s))
      by (rewrite Hf; left).
    apply list_elem_of_filter in Hp as [Hspy Hin].
    destruct (rd_setup C s HI Hs p Hin). congruence.
  - intros Hs.
    pose proof (rd_spies C s HI Hs) as Hcount.
    pose proof (inv_size s (reachable_Inv C s Hr) Hs). lia.
Qed.

Lemma spies_in_round_witness :
  length (spyPlayers secondVoting) = spyCount secondVoting.
Proof.
  apply (spies_in_round demoCategories secondVoting reachable_secondVoting).
  vm_compute. discriminate.
Defined.

Lemma no_remaining_spies (ps : list Player) :
  length (remainingSpies ps) = 0 →
  ∀ p, p ∈ ps → role p = spy → isEliminated p = Some true.
Proof.
  intros Hlen p Hp Hspy.
  destruct (isEliminated p) as [[]|] eqn:He; [done| |].
  all: assert (p ∈ remainingSpies ps)
         by (apply list_elem_of_filter; by rewrite He);
       destruct (remainingSpies ps); [by apply elem_of_nil in H|done].
Qed.

(** X22.  A victory is only stored in [summary] and fits the roster: with
    the players' victory every spy is eliminated; with the spies' victory
    a spy is left, and no more non-spies than spies. *)
Theorem victory_consistent C s v :
  reachable C s → victoryType s = Some v →
  gameState s = summary ∧
  match v with
  | victory_players =>
      ∀ p, p ∈ spyPlayers s → isEliminated p = Some true
  | victory_spies =>
      0 < length (remainingSpies (players s)) ∧
      length (remainingPlayers (players s))
        ≤ length (remainingSpies (players s))
  end.
Proof.
  intros Hr Hv. pose proof (rd_victory C s (reachable_RoundInv C s Hr)) as H.
  rewrite Hv in H. destruct v; destruct H as [Hs H]; (split; [done|]).
  - intros p [Hspy Hin]%list_elem_of_filter.
    by apply (no_remaining_spies (players s)).
  - done.
Qed.

Lemma victory_consistent_witness :
  gameState spyCaught = summary ∧
  ∀ p, p ∈ spyPlayers spyCaught → isEliminated p = Some true.
Proof.
  assert (Hr : reachable demoCategories spyCaught).
  { apply reachable_run; [apply reachable_inPlay|repeat constructor]. }
  assert (Hv : victoryType spyCaught = Some victory_players).
  { vm_compute. reflexivity. }
  apply (victory_consistent demoCategories spyCaught victory_players Hr Hv).
Defined.

(** X23.  The draw does not look at the players: on two rosters of the
    same length, with the same spy count and the same samples,
    [startGame] gives the spy role to the same positions and picks the
    same category and word. *)
Theorem startGame_by_position C s1 s2 rs s1' :
  length (players s1) = length (players s2) → spyCount s1 = spyCount s2 →
  3 ≤ length (players s1) → startGame C s1 rs = Ok s1' →
  ∃ s2', startGame C s2 rs = Ok s2' ∧
         role <$> players s2' = role <$> players s1' ∧
         selectedWord s2' = selectedWord s1' ∧
         selectedCategory s2' = selectedCategory s1'.
Proof.
  intros Hlen Hk Hn Hstart.
  apply startGame_Ok in Hstart
    as (rc & rw & rs' & cat & idxs & -> & Hcat & Hp & ->); [|done].
  unfold startGame. rewrite bool_decide_eq_false_2 by lia.
  rewrite Hcat, <- Hlen, <- Hk, Hp.
  eexists. split; [done|]. simpl. split; [|done].
  apply list_eq. intros i. unfold assignRoles.
  rewrite !list_lookup_fmap, !list_lookup_imap.
  destruct (players s1 !! i) as [p1|] eqn:H1,
           (players s2 !! i) as [p2|] eqn:H2; simpl; try done.
  - apply lookup_lt_Some in H1. apply lookup_ge_None in H2. lia.
  - apply lookup_lt_Some in H2. apply lookup_ge_None in H1. lia.
Qed.

Lemma startGame_by_position_witness :
  ∃ s2', startGame demoCategories
           (initial |> setPlayers (rev fourPlayers))
           [mkSample 0 1; mkSample 1 2; mkSample 1 4] = Ok s2' ∧
         role <$> players s2' = role <$> players afterStart.
Proof.
  assert (H3 : 3 ≤ length (players (run demoCategories initial lobby))).
  { vm_compute. lia. }
  assert (Hst : startGame demoCategories (run demoCategories initial lobby)
              [mkSample 0 1; mkSample 1 2; mkSample 1 4] = Ok afterStart).
  { vm_compute. reflexivity. }
  destruct (startGame_by_position demoCategories
              (run demoCategories initial lobby)
              (initial |> setPlayers (rev fourPlayers))
              [mkSample 0 1; mkSample 1 2; mkSample 1 4] afterStart
              eq_refl eq_refl H3 Hst) as (s2' & H1 & H2 & _).
  exists s2'. split; [exact H1|exact H2].
Defined.

Lemma players_timerEffect s : players (timerEffect s) = players s.
Proof. unfold timerEffect. by repeat case_match. Qed.

(** How one event changes the roster, player by player, once a round has
    been started. *)
Lemma step_players C s e :
  gameState s ≠ setup →
  Forall2 (λ p p', id p' = id p ∧ name p' = name p ∧
             (gameState s ≠ summary →
              role p' = role p ∧
              (truthy (isEliminated p) = true →
               truthy (isEliminated p') = true)))
    (players s) (players (step C s e)).
Proof.
  intros Hs. unfold step. rewrite players_timerEffect.
  assert (Hsame : Forall2 (λ p p', id p' = id p ∧ name p' = name p ∧
             (gameState s ≠ summary →
              role p' = role p ∧
              (truthy (isEliminated p) = true →
               truthy (isEliminated p') = true)))
            (players s) (players s)).
  { apply Forall_Forall2_diag, Forall_forall. done. }
  unfold dispatch.
  destruct (gameState s) eqn:Hg,
    e as [text|freshId|row|count|rs| | | | | |row| | | |];
    try done; try (by unfold tick; case_match; simpl).
  - destruct (negb (isRoleVisible s)); [done|].
    unfold nextPlayer. destruct (players s !! _); [|done].
    case_bool_decide; simpl; by apply Forall2_alter_r.
  - destruct (votingList s !! row) as [p|]; [|done]. simpl.
    apply Forall2_fmap_r, Forall_Forall2_diag, Forall_forall.
    intros q _. simpl. by case_bool_decide.
  - destruct (votedPlayer s); [|done].
    unfold continueAfterElimination. by repeat case_bool_decide.
  - simpl. apply Forall2_fmap_r, Forall_Forall2_diag, Forall_forall.
    intros q _. simpl. done.
Qed.

(** X24.  Once a round has been started, no event changes the ids or the
    names of the roster, or its length; and until the reset from
    [summary], none changes a role. *)
Theorem round_keeps_identities C s e :
  gameState s ≠ setup →
  id <$> players (step C s e) = id <$> players s ∧
  name <$> players (step C s e) = name <$> players s ∧
  (gameState s ≠ summary →
   role <$> players (step C s e) = role <$> players s).
Proof.
  intros Hs. pose proof (step_players C s e Hs) as HF.
  assert (Hmap : ∀ (A : Type) (f : Player → A) (l l' : list Player),
            Forall2 (λ p p', f p' = f p) l l' → f <$> l' = f <$> l).
  { intros A f l l' H. induction H as [|p p' l l' Hp _ IH]; [done|].
    by rewrite !fmap_cons, Hp, IH. }
  split; [|split; [|intros Hsum]]; apply Hmap;
    (eapply Forall2_impl; [exact HF|]); simpl.
  - by intros p p' (? & _).
  - by intros p p' (_ & ? & _).
  - intros p p' (_ & _ & H). by apply H.
Qed.

Lemma round_keeps_identities_witness :
  name <$> players (step demoCategories secondVoting (VoteBtn 1))
  = name <$> players secondVoting.
Proof.
  apply (round_keeps_identities demoCategories secondVoting (VoteBtn 1)).
  vm_compute. discriminate.
Defined.

(** X25.  Elimination lasts for the round: from the start of a round until
    the reset, a player who is eliminated stays eliminated, at the same
    roster position, after every event. *)
Theorem elimination_is_permanent C s e i p :
  gameState s ≠ setup → gameState s ≠ summary →
  players s !! i = Some p → truthy (isEliminated p) = true →
  ∃ p', players (step C s e) !! i = Some p' ∧ id p' = id p ∧
        truthy (isEliminated p') = true.
Proof.
  intros Hs Hsum Hp He.
  destruct (Forall2_lookup_l _ _ _ i p (step_players C s e Hs) Hp)
    as (p' & Hp' & Hid & _ & H).
  exists p'. split; [done|]. split; [done|]. by apply H.
Qed.

Lemma elimination_is_permanent_witness :
  ∃ p', players (step demoCategories secondVoting (VoteBtn 0)) !! 0 = Some p' ∧
        id p' = "a1" ∧ truthy (isEliminated p') = true.
Proof.
  assert (H1 : gameState secondVoting ≠ setup) by (vm_compute; discriminate).
  assert (H2 : gameState secondVoting ≠ summary) by (vm_compute; discriminate).
  assert (Hp : players secondVoting !! 0
               = Some (mkPlayer "a1" "Ann" player true (Some true))).
  { vm_compute. reflexivity. }
  apply (elimination_is_permanent demoCategories secondVoting (VoteBtn 0) 0
           _ H1 H2 Hp).
  reflexivity.
Defined.
